(** * BlocklistManager: a verified model of [hosts/BlockListManager.h]

    The development embeds the C++ class [BlocklistManager] shallowly:
    - [std::string] is Rocq's [string] (a sequence of 8-bit characters);
    - the two [std::unordered_map]s are stdpp [gmap]s keyed by strings;
    - a [std::shared_ptr<std::string>] is a pair of the allocation it points
      to and the (immutable) string stored there, so that reference equality
      is equality of allocations;
    - [stat], [usleep], opening the file and [make_shared] act on an explicit
      [World]; member functions pass the manager and the world explicitly;
    - a C++ exception ([std::out_of_range]) is the [Raise] case of [outcome].
    The reader-writer lock is not modelled: the functions below give the
    sequential behaviour of one call. *)

From stdpp Require Import gmap strings list fin_maps.
From Equations Require Import Equations.
From Stdlib Require Import ZArith Ascii.

#[local] Set Warnings "-clear-no-such-hyp".

Local Open Scope Z_scope.
Local Open Scope nat_scope.

(** ** Exceptions *)

Inductive exception := out_of_range.

Inductive outcome (A : Type) : Type :=
| Ok (a : A)
| Raise (e : exception).
Arguments Ok {A} a.
Arguments Raise {A} e.

Definition returns {A} (o : outcome A) : Prop := ∃ a, o = Ok a.

(** ** [std::string] primitives *)

Module Str.

Definition dot : ascii := "."%char.
Definition hash : ascii := "#"%char.
Definition newline : ascii := Ascii.ascii_of_nat 10.

(** [s.size()] *)
Definition size (s : string) : nat := String.length s.

(** [s[i]], [None] past the end. *)
Fixpoint at_ (s : string) (i : nat) : option ascii :=
  match s, i with
  | EmptyString, _ => None
  | String c _, 0 => Some c
  | String _ t, S j => at_ t j
  end.

(** First occurrence of [c] in [s], counted from the start of [s]. *)
Fixpoint find_first (s : string) (c : ascii) : option nat :=
  match s with
  | EmptyString => None
  | String a t => if Ascii.eqb a c then Some 0 else S <$> find_first t c
  end.

(** [s.find(c, pos)]: the least index [i >= pos] with [s[i] == c];
    [None] stands for [npos]. *)
Fixpoint find (s : string) (c : ascii) (pos : nat) : option nat :=
  match pos, s with
  | 0, _ => find_first s c
  | S _, EmptyString => None
  | S p, String _ t => S <$> find t c p
  end.

(** [s.substr(pos)]: the suffix from [pos]; throws [std::out_of_range]
    when [pos > s.size()]. *)
Fixpoint substr (s : string) (pos : nat) : outcome string :=
  match pos, s with
  | 0, _ => Ok s
  | S _, EmptyString => Raise out_of_range
  | S p, String _ t => substr t p
  end.

(** The first [n] characters of [s]. *)
Fixpoint prefix (s : string) (n : nat) : string :=
  match n, s with
  | 0, _ => EmptyString
  | S _, EmptyString => EmptyString
  | S m, String c t => String c (prefix t m)
  end.

(** [s.erase(pos)]: drops everything from [pos] on; throws
    [std::out_of_range] when [pos > s.size()]. *)
Definition erase (s : string) (pos : nat) : outcome string :=
  if decide (pos ≤ size s) then Ok (prefix s pos) else Raise out_of_range.

(** Membership of a character in a set of characters given as a string. *)
Fixpoint mem (c : ascii) (set : string) : bool :=
  match set with
  | EmptyString => false
  | String a t => Ascii.eqb a c || mem c t
  end.

(** [s.find_last_not_of(set)]: the greatest index whose character is not in
    [set]; [None] stands for [npos]. *)
Fixpoint find_last_not_of (s : string) (set : string) : option nat :=
  match s with
  | EmptyString => None
  | String a t =>
      match find_last_not_of t set with
      | Some i => Some (S i)
      | None => if mem a set then None else Some 0
      end
  end.

(** [::tolower] in the C locale, on one character. *)
Definition tolower_char (c : ascii) : ascii :=
  let n := Ascii.N_of_ascii c in
  if ((65 <=? n) && (n <=? 90))%N then Ascii.ascii_of_N (n + 32) else c.

(** [std::transform(s.begin(), s.end(), s.begin(), ::tolower)] *)
Fixpoint tolower (s : string) : string :=
  match s with
  | EmptyString => EmptyString
  | String c t => String (tolower_char c) (tolower t)
  end.

(** [std::isspace] in the C locale: space, and the controls 9 to 13. *)
Definition isspace (c : ascii) : bool :=
  let n := Ascii.N_of_ascii c in
  ((n =? 32) || ((9 <=? n) && (n <=? 13)))%N.

End Str.

(** ** Shared pointers and the two tables *)

(** A [std::shared_ptr<std::string>]: [ptr] is the allocation, [pointee]
    the string it holds.  The string is never written after
    [make_shared], so carrying it with the pointer loses nothing. *)
Record shared_ptr := { ptr : nat; pointee : string }.

Record BlockEntry := { targetAddress : shared_ptr }.

#[global] Instance shared_ptr_eq_dec : EqDecision shared_ptr.
Proof. solve_decision. Defined.
#[global] Instance BlockEntry_eq_dec : EqDecision BlockEntry.
Proof. solve_decision. Defined.

(** ** [lookupDomain] *)

(** Keeps the equation between a scrutinee and the case it falls in. *)
Definition inspect {A : Type} (x : A) : { y : A | x = y } := exist _ x eq_refl.

(** The [while] loop of [lookupDomain], entered with the current [pos]. *)
Equations? wildcard_loop (blocklist : gmap string BlockEntry)
    (domain : string) (pos : nat) : outcome (bool * string)
    by wf (Str.size domain - pos) lt :=
  wildcard_loop blocklist domain pos with inspect (Str.find domain Str.dot pos) := {
    | exist _ None _ => Ok (false, EmptyString)
    | exist _ (Some p) Hfind with Str.substr domain p := {
        | Raise e => Raise e
        | Ok wildcardDomain with blocklist !! wildcardDomain := {
            | Some it => Ok (true, pointee (targetAddress it))
            | None => wildcard_loop blocklist domain (S p) } } }.
Proof.
  clear - Hfind. unfold Str.size.
  revert pos p Hfind. induction domain as [|a t IH]; intros pos p H.
  - destruct pos; discriminate.
  - destruct pos as [|q]; simpl in *.
    + destruct (Ascii.eqb a Str.dot).
      * injection H as <-. lia.
      * destruct (Str.find_first t Str.dot) as [i|] eqn:E; [|discriminate].
        injection H as <-. specialize (IH 0 i).
        assert (Str.find t Str.dot 0 = Some i) as H0 by (destruct t; exact E).
        specialize (IH H0). lia.
    + destruct (Str.find t Str.dot q) as [i|] eqn:E; [|discriminate].
      injection H as <-. specialize (IH q i E). lia.
Qed.

Definition lookupDomain (blocklist : gmap string BlockEntry)
    (domain : string) : outcome (bool * string) :=
  match blocklist !! domain with
  | Some it => Ok (true, pointee (targetAddress it))
  | None => wildcard_loop blocklist domain 0
  end.

Definition entry_of (a : nat) (s : string) : BlockEntry :=
  {| targetAddress := {| ptr := a; pointee := s |} |}.

(** ** The environment: file system, clock and allocator *)

(** [struct timespec] and the fields of [struct stat] the class reads. *)
Record timespec := { tv_sec : Z; tv_nsec : Z }.
Record stat_t := { st_size : Z; st_mtim : timespec }.

(** What the path names at one instant: its metadata, and its bytes when
    the file can be opened for reading. *)
Record File := { meta : stat_t; data : option string }.

(** [disk] tells, for every instant, what each path names ([None]: [stat]
    fails there); it is arbitrary, so that a concurrent writer may change
    the file between any two calls.  [heap_top] is the next fresh
    allocation. *)
Record World := {
  clock : nat;
  disk : nat → string → option File;
  heap_top : nat
}.

Definition advance (n : nat) (w : World) : World :=
  {| clock := clock w + n; disk := disk w; heap_top := heap_top w |}.

(** [stat(path, &buf) == 0 ? Some buf : None] *)
Definition sys_stat (path : string) (w : World) : option stat_t * World :=
  (meta <$> disk w (clock w) path, advance 1 w).

(** [std::ifstream file(path)]: the bytes to be read when [is_open()].
    The loop reads the bytes the file holds at the instant it is opened. *)
Definition ifstream_open (path : string) (w : World) : option string * World :=
  (disk w (clock w) path ≫= data, advance 1 w).

Definition usleep (us : nat) (w : World) : World := advance us w.

(** [std::make_shared<std::string>(s)] *)
Definition make_shared (s : string) (w : World) : shared_ptr * World :=
  ({| ptr := heap_top w; pointee := s |},
   {| clock := clock w; disk := disk w; heap_top := S (heap_top w) |}).

(** ** Reading the rule file *)

(** The lines that successive calls of [std::getline(file, line)] deliver
    until one fails: the text is cut at every newline, and a newline that
    ends the text opens no further line. *)
Fixpoint getlines (content : string) : list string :=
  match content with
  | EmptyString => []
  | String c t =>
      if Ascii.eqb c Str.newline then EmptyString :: getlines t
      else match getlines t with
           | [] => [String c EmptyString]
           | l :: ls => String c l :: ls
           end
  end.

(** [is >> word] on a stream holding [s]: leading white space is skipped,
    then characters are taken up to the next white space. *)
Fixpoint skipws (s : string) : string :=
  match s with
  | EmptyString => EmptyString
  | String c t => if Str.isspace c then skipws t else s
  end.

Fixpoint read_word (s : string) : string * string :=
  match s with
  | EmptyString => (EmptyString, EmptyString)
  | String c t =>
      if Str.isspace c then (EmptyString, s)
      else let '(w, r) := read_word t in (String c w, r)
  end.

(** The extracted word ([None] when the extraction fails) and what is
    left in the stream. *)
Definition extract (s : string) : option string * string :=
  match read_word (skipws s) with
  | (EmptyString, r) => (None, r)
  | (w, r) => (Some w, r)
  end.

(** [iss >> address >> domain], as the condition of the [if]. *)
Definition extract2 (line : string) : option (string * string) :=
  match extract line with
  | (Some address, rest) =>
      match extract rest with
      | (Some domain, _) => Some (address, domain)
      | (None, _) => None
      end
  | (None, _) => None
  end.

(** [" \t\r\n"] *)
Definition trailing_ws : string :=
  String " " (String (Ascii.ascii_of_nat 9) (String (Ascii.ascii_of_nat 13)
    (String (Ascii.ascii_of_nat 10) EmptyString))).

(** [npos + 1] wraps around to [0]. *)
Definition npos_plus_1 (r : option nat) : nat :=
  match r with Some i => S i | None => 0 end.

(** ** The manager *)

Record FileInfo := { modTime : timespec; fileSize : Z }.

Record BlocklistManager := {
  blocklist : gmap string BlockEntry;
  addressPool : gmap string shared_ptr;
  blocklistPath : string;
  lastFileInfo : FileInfo
}.

Definition getOrCreateAddress (addr : string) (m : BlocklistManager) (w : World)
    : shared_ptr * BlocklistManager * World :=
  match addressPool m !! addr with
  | Some it => (it, m, w)
  | None =>
      let '(sharedAddr, w) := make_shared addr w in
      (sharedAddr,
       {| blocklist := blocklist m;
          addressPool := <[addr := sharedAddr]> (addressPool m);
          blocklistPath := blocklistPath m;
          lastFileInfo := lastFileInfo m |},
       w)
  end.

Definition same_stat (a b : stat_t) : bool :=
  bool_decide (st_size a = st_size b)
  && bool_decide (tv_sec (st_mtim a) = tv_sec (st_mtim b))
  && bool_decide (tv_nsec (st_mtim a) = tv_nsec (st_mtim b)).

Definition isFileStable (m : BlocklistManager) (w : World) : bool * World :=
  let '(r1, w) := sys_stat (blocklistPath m) w in
  match r1 with
  | None => (false, w)
  | Some stat1 =>
      let w := usleep 1000 w in
      let '(r2, w) := sys_stat (blocklistPath m) w in
      match r2 with
      | None => (false, w)
      | Some stat2 => (same_stat stat1 stat2, w)
      end
  end.

Definition file_changed (fileStat : stat_t) (last : FileInfo) : bool :=
  negb (bool_decide (tv_sec (st_mtim fileStat) = tv_sec (modTime last)))
  || negb (bool_decide (tv_nsec (st_mtim fileStat) = tv_nsec (modTime last)))
  || negb (bool_decide (st_size fileStat = fileSize last)).

Definition shouldReload (m : BlocklistManager) (w : World) : bool * World :=
  let '(r, w) := sys_stat (blocklistPath m) w in
  match r with
  | None => (false, w)
  | Some fileStat =>
      if negb (file_changed fileStat (lastFileInfo m)) then (false, w)
      else
        let '(stable, w) := isFileStable m w in
        if negb stable then (false, w) else (true, w)
  end.

(** The body of the [while (std::getline(file, line))] loop. *)
Definition load_line (line : string) (m : BlocklistManager) (w : World)
    : outcome unit * BlocklistManager * World :=
  match line with
  | EmptyString => (Ok tt, m, w)
  | String c _ =>
      if Ascii.eqb c Str.hash then (Ok tt, m, w)
      else
        match Str.erase line
                (npos_plus_1 (Str.find_last_not_of line trailing_ws)) with
        | Raise e => (Raise e, m, w)
        | Ok line =>
            match extract2 line with
            | Some (address, domain) =>
                let domain := Str.tolower domain in
                let '(p, m, w) := getOrCreateAddress address m w in
                (Ok tt,
                 {| blocklist := <[domain := {| targetAddress := p |}]> (blocklist m);
                    addressPool := addressPool m;
                    blocklistPath := blocklistPath m;
                    lastFileInfo := lastFileInfo m |},
                 w)
            | None => (Ok tt, m, w)
            end
        end
  end.

Fixpoint read_lines (lines : list string) (m : BlocklistManager) (w : World)
    : outcome unit * BlocklistManager * World :=
  match lines with
  | [] => (Ok tt, m, w)
  | line :: rest =>
      match load_line line m w with
      | (Ok _, m, w) => read_lines rest m w
      | (Raise e, m, w) => (Raise e, m, w)
      end
  end.

Definition loadBlocklist (m : BlocklistManager) (w : World)
    : outcome unit * BlocklistManager * World :=
  let '(r, w) := sys_stat (blocklistPath m) w in
  match r with
  | None => (Ok tt, m, w)
  | Some fileStat =>
      let '(file, w) := ifstream_open (blocklistPath m) w in
      match file with
      | None => (Ok tt, m, w)
      | Some content =>
          read_lines (getlines content)
            {| blocklist := ∅;
               addressPool := ∅;
               blocklistPath := blocklistPath m;
               lastFileInfo := {| modTime := st_mtim fileStat;
                                  fileSize := st_size fileStat |} |}
            w
      end
  end.

(** The private constructor, run by the first call of [getInstance]. *)
Definition create (path : string) (w : World)
    : outcome unit * BlocklistManager * World :=
  loadBlocklist
    {| blocklist := ∅; addressPool := ∅; blocklistPath := path;
       lastFileInfo := {| modTime := {| tv_sec := 0; tv_nsec := 0 |};
                          fileSize := 0 |} |}
    w.

Definition checkDomain (domain : string) (m : BlocklistManager) (w : World)
    : outcome (bool * string) * BlocklistManager * World :=
  let normalizedDomain := Str.tolower domain in
  let '(reload, w) := shouldReload m w in
  if negb reload then (lookupDomain (blocklist m) normalizedDomain, m, w)
  else
    let '(reload, w) := shouldReload m w in
    if reload then
      match loadBlocklist m w with
      | (Ok _, m, w) => (lookupDomain (blocklist m) normalizedDomain, m, w)
      | (Raise e, m, w) => (Raise e, m, w)
      end
    else (lookupDomain (blocklist m) normalizedDomain, m, w).

Definition forceReload (m : BlocklistManager) (w : World)
    : outcome unit * BlocklistManager * World :=
  loadBlocklist m w.

(** [getStats]: [(domainCount, uniqueAddressCount)]. *)
Definition getStats (m : BlocklistManager) : nat * nat :=
  (size (blocklist m), size (addressPool m)).

(** ** Concrete worlds used in the examples *)

Definition nl : string := String Str.newline EmptyString.

Definition stat_of (content : string) : stat_t :=
  {| st_size := Z.of_nat (Str.size content);
     st_mtim := {| tv_sec := 1700000000; tv_nsec := 500 |} |}.

(** A world where [path] always holds [content], readable. *)
Definition steady_world (path content : string) : World :=
  {| clock := 0;
     disk := λ _ p, if decide (p = path)
                    then Some {| meta := stat_of content; data := Some content |}
                    else None;
     heap_top := 0 |}.

(** A world where nothing exists. *)
Definition empty_world : World :=
  {| clock := 0; disk := λ _ _, None; heap_top := 0 |}.

Definition hosts : string := "/data/etc/hosts".

(** Construct on [content], then resolve [domain]. *)
Definition resolve_on (content domain : string) : outcome (bool * string) :=
  let '(_, m, w) := create hosts (steady_world hosts content) in
  (checkDomain domain m w).1.1.

Definition stats_on (content : string) : nat * nat :=
  let '(_, m, _) := create hosts (steady_world hosts content) in getStats m.

(** ** Derived views of the parser *)

(** The line after [line.erase(line.find_last_not_of(" \t\r\n") + 1)]. *)
Definition stripped (line : string) : string :=
  Str.prefix line (npos_plus_1 (Str.find_last_not_of line trailing_ws)).

(** What one line contributes: [None] when the loop body stores nothing,
    [Some (address, domain)] (domain lowercased) when it stores a rule. *)
Definition parse_line (line : string) : option (string * string) :=
  match line with
  | EmptyString => None
  | String c _ =>
      if Ascii.eqb c Str.hash then None
      else '(address, domain) ← extract2 (stripped line);
           Some (address, Str.tolower domain)
  end.

(** The rules of a file, in file order. *)
Definition rules (content : string) : list (string * string) :=
  omap parse_line (getlines content).

(** The manager after [blocklist[domain] = {p}]. *)
Definition store (domain : string) (p : shared_ptr) (m : BlocklistManager)
    : BlocklistManager :=
  {| blocklist := <[domain := {| targetAddress := p |}]> (blocklist m);
     addressPool := addressPool m;
     blocklistPath := blocklistPath m;
     lastFileInfo := lastFileInfo m |}.

(** The manager and world after the loop body has stored the rule
    [(address, domain)]. *)
Definition run_rule (s : BlocklistManager * World) (r : string * string)
    : BlocklistManager * World :=
  let '(p, m, w) := getOrCreateAddress r.1 s.1 s.2 in (store r.2 p m, w).

(** The manager as [loadBlocklist] leaves it just before the loop. *)
Definition cleared (m : BlocklistManager) (fileStat : stat_t) : BlocklistManager :=
  {| blocklist := ∅;
     addressPool := ∅;
     blocklistPath := blocklistPath m;
     lastFileInfo := {| modTime := st_mtim fileStat;
                        fileSize := st_size fileStat |} |}.

(** The address string an index entry stands for. *)
Definition address_of (e : BlockEntry) : string := pointee (targetAddress e).

(** ** Invariants of the two tables *)

(** Every pool slot holds a pointer to the string that keys it. *)
Definition pool_ok (m : BlocklistManager) : Prop :=
  ∀ a p, addressPool m !! a = Some p → pointee p = a.

(** Every index entry holds the pointer the pool has for its address. *)
Definition index_ok (m : BlocklistManager) : Prop :=
  ∀ k e, blocklist m !! k = Some e →
         addressPool m !! address_of e = Some (targetAddress e).

Definition consistent (m : BlocklistManager) : Prop := pool_ok m ∧ index_ok m.

(** The managers that the public interface can produce. *)
Inductive reachable : BlocklistManager → Prop :=
| reach_create path w : reachable (create path w).1.2
| reach_checkDomain d m w : reachable m → reachable (checkDomain d m w).1.2
| reach_forceReload m w : reachable m → reachable (forceReload m w).1.2.

(** ** The lookup as the specification words it *)

(** [d[i:]]: the part of [d] from position [i] on. *)
Fixpoint slice_from (d : string) (i : nat) : string :=
  match i, d with
  | 0, _ => d
  | S _, EmptyString => EmptyString
  | S j, String _ t => slice_from t j
  end.

(** The positions of a separator in [d], left to right. *)
Definition separator_positions (d : string) : list nat :=
  filter (λ i, Str.at_ d i = Some Str.dot) (seq 0 (Str.size d)).

(** The separator positions at or after [pos]. *)
Definition separators_from (d : string) (pos : nat) : list nat :=
  filter (λ i, Str.at_ d i = Some Str.dot) (seq pos (Str.size d - pos)).

(** The wildcard candidates of [d]: [d[i:]] for each separator position. *)
Definition candidates (d : string) : list string :=
  slice_from d <$> separator_positions d.

(** The first candidate present in the index. *)
Fixpoint first_hit (index : gmap string BlockEntry) (cs : list string)
    : option BlockEntry :=
  match cs with
  | [] => None
  | c :: cs' =>
      match index !! c with
      | Some h => Some h
      | None => first_hit index cs'
      end
  end.

Definition answer (h : option BlockEntry) : bool * string :=
  match h with
  | Some e => (true, address_of e)
  | None => (false, EmptyString)
  end.

(** Exact phase, then wildcard phase. *)
Definition spec_lookup (index : gmap string BlockEntry) (d : string)
    : bool * string :=
  match index !! d with
  | Some h => (true, address_of h)
  | None => answer (first_hit index (candidates d))
  end.

(** A key matches a domain when it is the domain itself or the part of the
    domain that starts at one of its separators. *)
Definition key_matches (key d : string) : Prop :=
  key = d ∨ ∃ i, Str.at_ d i = Some Str.dot ∧ key = slice_from d i.

(** White-space separated fields of a line. *)
Fixpoint fields (s : string) : list string :=
  match s with
  | EmptyString => []
  | String c t =>
      if Str.isspace c then fields t
      else match t with
           | EmptyString => [String c EmptyString]
           | String c' _ =>
               if Str.isspace c' then String c EmptyString :: fields t
               else match fields t with
                    | [] => [String c EmptyString]
                    | f :: fs => String c f :: fs
                    end
           end
  end.

(** ** Further sample files, managers and worlds *)

Definition dup_content : string :=
  "0.0.0.0 x.com" +:+ nl +:+ "9.9.9.9 X.COM" +:+ nl +:+ "1.1.1.1 y.com".

Definition shared_content : string :=
  "0.0.0.0 a.com" +:+ nl +:+ "0.0.0.0 .b.com" +:+ nl +:+ "127.0.0.1 c.com".

(** A world where the file can be stated but not opened. *)
Definition locked_world (path : string) : World :=
  {| clock := 0;
     disk := λ _ p, if decide (p = path)
                    then Some {| meta := stat_of "secret"; data := None |}
                    else None;
     heap_top := 7 |}.

Definition loaded_manager : BlocklistManager :=
  (create hosts (steady_world hosts "0.0.0.0 a.com")).1.2.

(** A world where the file keeps changing: its size is the instant. *)
Definition busy_world (path : string) : World :=
  {| clock := 0;
     disk := λ t p, if decide (p = path)
                    then Some {| meta := {| st_size := Z.of_nat t;
                                            st_mtim := {| tv_sec := 5; tv_nsec := 0 |} |};
                                 data := Some EmptyString |}
                    else None;
     heap_top := 0 |}.


(** ** Shapes of keys and addresses *)

(** All characters of [s] satisfy [p]. *)
Fixpoint all_chars (p : ascii → bool) (s : string) : bool :=
  match s with
  | EmptyString => true
  | String c t => p c && all_chars p t
  end.

(** The last character of [s], if any. *)
Fixpoint last_char (s : string) : option ascii :=
  match s with
  | EmptyString => None
  | String c EmptyString => Some c
  | String _ t => last_char t
  end.

(** A token as [operator>>] delivers it: not empty, no white space. *)
Definition token (s : string) : Prop :=
  s ≠ EmptyString ∧ all_chars (λ c, negb (Str.isspace c)) s = true.

(** Index keys are lowercase tokens and pooled addresses are tokens. *)
Definition tables_wf (m : BlocklistManager) : Prop :=
  (∀ k, is_Some (blocklist m !! k) → token k ∧ Str.tolower k = k)
  ∧ (∀ a, is_Some (addressPool m !! a) → token a).

(** The snapshot [loadBlocklist] records for a [stat] result. *)
Definition snapshot_of (st : stat_t) : FileInfo :=
  {| modTime := st_mtim st; fileSize := st_size st |}.

(** ** The rules of a file as the specification words them *)

Definition upper_letters : string := "ABCDEFGHIJKLMNOPQRSTUVWXYZ".
Definition lower_letters : string := "abcdefghijklmnopqrstuvwxyz".

(** The character of [to] at the place [c] has in [from]; [c] itself
    when it is not in [from]. *)
Fixpoint translate (c : ascii) (from to : string) : ascii :=
  match from, to with
  | String f fs, String t ts => if Ascii.eqb c f then t else translate c fs ts
  | _, _ => c
  end.

(** The lowercase form of a string: each of the letters A to Z is replaced
    by its small letter, every other character is kept. *)
Fixpoint lowercase (s : string) : string :=
  match s with
  | EmptyString => EmptyString
  | String c t => String (translate c upper_letters lower_letters) (lowercase t)
  end.

(** The rule of an accepted line: the line is not empty, does not start
    with [#], and has at least two fields; the rule is the first field and
    the lowercase form of the second. *)
Definition accepted_line (line : string) : option (string * string) :=
  match line with
  | EmptyString => None
  | String c _ =>
      if Ascii.eqb c Str.hash then None
      else match fields line with
           | address :: domain :: _ => Some (address, lowercase domain)
           | _ => None
           end
  end.

(** The rules of the accepted lines of a file, in file order. *)
Definition accepted_rules (content : string) : list (string * string) :=
  omap accepted_line (getlines content).

(** A manager built from the single wildcard rule. *)
Definition wildcard_manager : BlocklistManager :=
  (create hosts (steady_world hosts "0.0.0.0 .example.com")).1.2.

(** * Properties *)

(** ** Sanity checks on concrete inputs *)

Example lookup_ex1 :
  lookupDomain {[ ".example.com" := entry_of 0 "0.0.0.0" ]} "a.b.example.com"
  = Ok (true, "0.0.0.0").
Proof. vm_compute. reflexivity. Qed.

Example resolve_ex1 :
  resolve_on ("0.0.0.0 .example.com" +:+ nl +:+ "# c" +:+ nl +:+ "1.2.3.4 X.com")
             "ads.Example.com" = Ok (true, "0.0.0.0").
Proof. vm_compute. reflexivity. Qed.

Example getlines_ex :
  getlines ("a" +:+ nl +:+ nl +:+ "b" +:+ nl) = ["a"; ""; "b"].
Proof. vm_compute. reflexivity. Qed.

Example fields_ex : fields "  0.0.0.0   a.com x " = ["0.0.0.0"; "a.com"; "x"].
Proof. vm_compute. reflexivity. Qed.

Example rules_ex :
  rules ("0.0.0.0 A.com  " +:+ nl +:+ "#x y" +:+ nl +:+ "lonely" +:+ nl +:+ " 1.1.1.1 b.org # note")
  = [("0.0.0.0", "a.com"); ("1.1.1.1", "b.org")].
Proof. vm_compute. reflexivity. Qed.

(** ** Facts about the string primitives *)

Section StringFacts.

Lemma at_lt s i c : Str.at_ s i = Some c → i < Str.size s.
Proof.
  revert i. induction s as [|a t IH]; intros [|j] H; simpl in *;
    try discriminate; try lia.
  apply IH in H. lia.
Qed.

Lemma find_first_Some s c p :
  Str.find_first s c = Some p →
  Str.at_ s p = Some c ∧ ∀ j, j < p → Str.at_ s j ≠ Some c.
Proof.
  revert p. induction s as [|a t IH]; intros p H; simpl in H; [discriminate|].
  destruct (Ascii.eqb a c) eqn:E.
  - injection H as <-. apply Ascii.eqb_eq in E as ->. split; [reflexivity|lia].
  - destruct (Str.find_first t c) as [i|] eqn:F; [|discriminate].
    injection H as <-. destruct (IH i eq_refl) as [H1 H2].
    split; [exact H1|]. intros [|j] Hj; simpl.
    + apply Ascii.eqb_neq in E. congruence.
    + apply H2. lia.
Qed.

Lemma find_first_None s c j : Str.find_first s c = None → Str.at_ s j ≠ Some c.
Proof.
  revert j. induction s as [|a t IH]; intros j H; simpl in *.
  - destruct j; discriminate.
  - destruct (Ascii.eqb a c) eqn:E; [discriminate|].
    destruct (Str.find_first t c) eqn:F; [discriminate|].
    destruct j as [|j]; simpl.
    + apply Ascii.eqb_neq in E. congruence.
    + apply IH. reflexivity.
Qed.

Lemma find_Some s c pos p :
  Str.find s c pos = Some p →
  pos ≤ p ∧ Str.at_ s p = Some c ∧ ∀ j, pos ≤ j → j < p → Str.at_ s j ≠ Some c.
Proof.
  revert s p. induction pos as [|q IH]; intros s p H.
  - assert (Str.find_first s c = Some p) as H' by (destruct s; exact H).
    apply find_first_Some in H' as [H1 H2].
    split; [lia|]. split; [exact H1|]. intros j _. apply H2.
  - destruct s as [|a t]; simpl in H; [discriminate|].
    destruct (Str.find t c q) as [i|] eqn:F; [|discriminate].
    injection H as <-. destruct (IH t i F) as (H1 & H2 & H3).
    split; [lia|]. split; [exact H2|].
    intros [|j] Hj1 Hj2; [lia|]. simpl. apply H3; lia.
Qed.

Lemma find_None s c pos j :
  Str.find s c pos = None → pos ≤ j → Str.at_ s j ≠ Some c.
Proof.
  revert s j. induction pos as [|q IH]; intros s j H Hj.
  - apply find_first_None. destruct s; exact H.
  - destruct s as [|a t]; simpl in H.
    + destruct j; discriminate.
    + destruct (Str.find t c q) eqn:F; [discriminate|].
      destruct j as [|j]; [lia|]. simpl. apply IH; [exact F|lia].
Qed.

Lemma substr_in_range s p : p ≤ Str.size s → Str.substr s p = Ok (slice_from s p).
Proof.
  revert s. induction p as [|q IH]; intros s H.
  - destruct s; reflexivity.
  - destruct s as [|a t]; simpl in *; [lia|]. apply IH. lia.
Qed.


Lemma size_app s t : Str.size (s +:+ t) = Str.size s + Str.size t.
Proof. induction s as [|a s IH]; simpl; [reflexivity|]. now rewrite IH. Qed.




Lemma tolower_char_idem c : Str.tolower_char (Str.tolower_char c) = Str.tolower_char c.
Proof. destruct c as [[] [] [] [] [] [] [] []]; reflexivity. Qed.

Lemma tolower_idem s : Str.tolower (Str.tolower s) = Str.tolower s.
Proof.
  induction s as [|c t IH]; simpl; [reflexivity|].
  now rewrite tolower_char_idem, IH.
Qed.

Lemma find_last_not_of_lt s set i :
  Str.find_last_not_of s set = Some i → i < Str.size s.
Proof.
  revert i. induction s as [|a t IH]; intros i H; simpl in *; [discriminate|].
  destruct (Str.find_last_not_of t set) as [k|] eqn:F.
  - injection H as <-. specialize (IH k eq_refl). lia.
  - destruct (Str.mem a set); [discriminate|]. injection H as <-. lia.
Qed.

Lemma erase_trailing_ok line :
  Str.erase line (npos_plus_1 (Str.find_last_not_of line trailing_ws))
  = Ok (stripped line).
Proof.
  unfold Str.erase, stripped.
  destruct (Str.find_last_not_of line trailing_ws) as [i|] eqn:F; simpl.
  - apply find_last_not_of_lt in F. rewrite decide_True by lia. reflexivity.
  - reflexivity.
Qed.

End StringFacts.

(** ** The wildcard loop *)

Lemma wildcard_loop_body bl d pos :
  wildcard_loop bl d pos =
  match Str.find d Str.dot pos with
  | None => Ok (false, EmptyString)
  | Some p =>
      match Str.substr d p with
      | Raise e => Raise e
      | Ok w =>
          match bl !! w with
          | Some it => Ok (true, pointee (targetAddress it))
          | None => wildcard_loop bl d (S p)
          end
      end
  end.
Proof.
  simp wildcard_loop. unfold inspect.
  cut (∀ x : {y | Str.find d Str.dot pos = y},
        wildcard_loop_unfold_clause_1 bl d pos x =
        match proj1_sig x with
        | None => Ok (false, EmptyString)
        | Some p =>
            match Str.substr d p with
            | Raise e => Raise e
            | Ok w =>
                match bl !! w with
                | Some it => Ok (true, pointee (targetAddress it))
                | None => wildcard_loop bl d (S p)
                end
            end
        end).
  { intros H. apply (H (exist _ _ eq_refl)). }
  intros [[p|] Hp]; simpl; [|reflexivity].
  destruct (Str.substr d p) as [w|e] eqn:Es; simpl; [|reflexivity].
  destruct (bl !! w) as [it|] eqn:El; simpl; reflexivity.
Qed.

Lemma separators_from_none d pos n :
  (∀ j, pos ≤ j → j < pos + n → Str.at_ d j ≠ Some Str.dot) →
  filter (λ i, Str.at_ d i = Some Str.dot) (seq pos n) = [].
Proof.
  revert pos. induction n as [|n IH]; intros pos H; simpl; [reflexivity|].
  rewrite filter_cons_False by (apply H; lia).
  apply IH. intros j H1 H2. apply H; lia.
Qed.

Lemma separators_from_find_None d pos :
  Str.find d Str.dot pos = None → separators_from d pos = [].
Proof.
  intros H. apply separators_from_none. intros j Hj _.
  eapply find_None; eauto.
Qed.

Lemma separators_from_find_Some d pos p :
  Str.find d Str.dot pos = Some p →
  p < Str.size d ∧ separators_from d pos = p :: separators_from d (S p).
Proof.
  intros H. apply find_Some in H as (H1 & H2 & H3).
  pose proof (at_lt _ _ _ H2) as Hlt. split; [exact Hlt|].
  unfold separators_from.
  replace (Str.size d - pos) with ((p - pos) + S (Str.size d - S p)) by lia.
  rewrite seq_app, filter_app.
  rewrite separators_from_none by (intros j Hj1 Hj2; apply H3; lia).
  simpl. replace (pos + (p - pos)) with p by lia.
  rewrite filter_cons_True by exact H2. reflexivity.
Qed.

Lemma wildcard_loop_spec bl d pos :
  wildcard_loop bl d pos
  = Ok (answer (first_hit bl (slice_from d <$> separators_from d pos))).
Proof.
  remember (Str.size d - pos) as n eqn:Hn.
  revert pos Hn. induction n as [n IH] using lt_wf_ind. intros pos Hn.
  rewrite wildcard_loop_body.
  destruct (Str.find d Str.dot pos) as [p|] eqn:F.
  - pose proof (find_Some _ _ _ _ F) as (Hle & _ & _).
    apply separators_from_find_Some in F as [Hlt ->].
    rewrite substr_in_range by lia. simpl.
    destruct (bl !! slice_from d p) as [it|]; [reflexivity|].
    apply (IH (Str.size d - S p)); [lia|reflexivity].
  - rewrite separators_from_find_None by exact F. reflexivity.
Qed.

Lemma lookupDomain_spec bl d : lookupDomain bl d = Ok (spec_lookup bl d).
Proof.
  unfold lookupDomain, spec_lookup.
  destruct (bl !! d) as [it|]; [reflexivity|].
  rewrite wildcard_loop_spec. unfold candidates, separator_positions, separators_from.
  now rewrite Nat.sub_0_r.
Qed.


Lemma first_hit_insert_ne bl w e (cs : list string) :
  (∀ c, c ∈ cs → c ≠ w) →
  first_hit (<[w := e]> bl) cs = first_hit bl cs.
Proof.
  induction cs as [|c cs IH]; intros H; simpl; [reflexivity|].
  rewrite lookup_insert_ne by (apply not_eq_sym, H; left).
  rewrite IH by (intros c' Hc'; apply H; now right). reflexivity.
Qed.

Lemma first_hit_None bl (cs : list string) :
  first_hit bl cs = None ↔ ∀ c, c ∈ cs → bl !! c = None.
Proof.
  induction cs as [|c cs IH]; simpl.
  - split; [intros _ c Hc; inversion Hc|reflexivity].
  - destruct (bl !! c) as [h|] eqn:E.
    + split; [discriminate|]. intros H. specialize (H c). rewrite E in H.
      apply H. left.
    + rewrite IH. split.
      * intros H c' Hc'. inversion Hc'; subst; [exact E|now apply H].
      * intros H c' Hc'. apply H. now right.
Qed.

Lemma elem_of_candidates d c :
  c ∈ candidates d ↔ ∃ i, Str.at_ d i = Some Str.dot ∧ c = slice_from d i.
Proof.
  unfold candidates, separator_positions. rewrite list_elem_of_fmap. split.
  - intros (i & -> & Hi). apply list_elem_of_filter in Hi as [Hi _]. eauto.
  - intros (i & Hi & ->). exists i. split; [reflexivity|].
    apply list_elem_of_filter. split; [exact Hi|].
    apply elem_of_seq. apply at_lt in Hi. lia.
Qed.

(** ** C2: the two-phase lookup *)

(** C2. For every domain string and every index, [lookupDomain] returns
    normally with the answer of the two-phase lookup: the address of the
    exact key when the domain is a key; otherwise the address of the first
    candidate [d[i:]], over the separator positions [i] of [d] from left to
    right, that is a key; and [(false, "")] when no candidate is a key.  A
    domain without separator is answered by the exact phase alone. *)
Theorem lookupDomain_two_phase (bl : gmap string BlockEntry) (d : string) :
  lookupDomain bl d = Ok (spec_lookup bl d)
  ∧ (separator_positions d = [] → lookupDomain bl d = Ok (answer (bl !! d))).
Proof.
  split; [apply lookupDomain_spec|].
  intros H. rewrite lookupDomain_spec. unfold spec_lookup, candidates.
  rewrite H. simpl. destruct (bl !! d); reflexivity.
Qed.

Lemma lookupDomain_two_phase_witness :
  lookupDomain {[ ".com" := entry_of 0 "0.0.0.0" ]} "localhost"
  = Ok (answer (({[ ".com" := entry_of 0 "0.0.0.0" ]} : gmap string BlockEntry)
                  !! "localhost")).
Proof.
  apply (proj2 (lookupDomain_two_phase _ "localhost")). reflexivity.
Defined.

(** ** Wildcard keys in a given index *)




(** ** The parser *)

Lemma fields_cons c t :
  fields (String c t) =
  if Str.isspace c then fields t
  else match t with
       | EmptyString => [String c EmptyString]
       | String c' _ =>
           if Str.isspace c' then String c EmptyString :: fields t
           else match fields t with
                | [] => [String c EmptyString]
                | f :: fs => String c f :: fs
                end
       end.
Proof. reflexivity. Qed.

Lemma fields_read_word c t :
  Str.isspace c = false →
  fields (String c t) = String c (read_word t).1 :: fields (read_word t).2.
Proof.
  revert c. induction t as [|c' t' IH]; intros c Hc.
  - simpl. rewrite Hc. reflexivity.
  - rewrite fields_cons, Hc. cbv beta iota. cbn [read_word].
    destruct (Str.isspace c') eqn:Hc'.
    + reflexivity.
    + rewrite (IH c' Hc'). destruct (read_word t') as [w r]. reflexivity.
Qed.

Lemma extract_fields s :
  match fields s with
  | [] => (extract s).1 = None
  | f :: fs => (extract s).1 = Some f ∧ fields (extract s).2 = fs
  end.
Proof.
  induction s as [|c t IH].
  - reflexivity.
  - destruct (Str.isspace c) eqn:Hc.
    + assert (extract (String c t) = extract t) as ->
        by (unfold extract; simpl; rewrite Hc; reflexivity).
      assert (fields (String c t) = fields t) as ->
        by (simpl; rewrite Hc; reflexivity).
      exact IH.
    + rewrite (fields_read_word c t Hc).
      unfold extract. cbn [skipws]. rewrite Hc. cbn [read_word]. rewrite Hc.
      destruct (read_word t) as [w r]. simpl. split; reflexivity.
Qed.

Lemma extract2_fields s :
  extract2 s = match fields s with
               | a :: d :: _ => Some (a, d)
               | _ => None
               end.
Proof.
  unfold extract2. pose proof (extract_fields s) as H1.
  destruct (extract s) as [o1 r1]. simpl in H1.
  destruct (fields s) as [|a fs].
  - subst o1. reflexivity.
  - destruct H1 as [-> Hfs].
    pose proof (extract_fields r1) as H2. rewrite Hfs in H2.
    destruct (extract r1) as [o2 r2]. simpl in H2.
    destruct fs as [|d more].
    + subst o2. reflexivity.
    + destruct H2 as [-> _]. reflexivity.
Qed.

Lemma load_line_parse line m w :
  load_line line m w =
  match parse_line line with
  | None => (Ok tt, m, w)
  | Some (a, d) =>
      let '(p, m', w') := getOrCreateAddress a m w in (Ok tt, store d p m', w')
  end.
Proof.
  unfold load_line, parse_line. destruct line as [|c t]; [reflexivity|].
  destruct (Ascii.eqb c Str.hash); [reflexivity|].
  rewrite erase_trailing_ok.
  destruct (extract2 (stripped (String c t))) as [[a d]|]; reflexivity.
Qed.

Lemma read_lines_app l1 l2 m w :
  read_lines (l1 ++ l2) m w =
  match read_lines l1 m w with
  | (Ok _, m', w') => read_lines l2 m' w'
  | (Raise e, m', w') => (Raise e, m', w')
  end.
Proof.
  revert m w. induction l1 as [|l l1 IH]; intros m w; simpl; [reflexivity|].
  destruct (load_line l m w) as [[[u|e] m'] w']; [apply IH|reflexivity].
Qed.

Lemma parse_line_few_fields line :
  length (fields (stripped line)) < 2 → parse_line line = None.
Proof.
  intros H. unfold parse_line. destruct line as [|c t]; [reflexivity|].
  destruct (Ascii.eqb c Str.hash); [reflexivity|].
  rewrite extract2_fields.
  destruct (fields (stripped (String c t))) as [|a [|d more]];
    simpl in *; try reflexivity; lia.
Qed.

(** ** C3: lines that are not rules *)

(** C3, as the code has it.  A line whose content, after the trailing
    white space is stripped, has fewer than two white-space separated
    fields stores nothing: the loop body leaves the manager as it is, and
    the file loads as it would without that line.  A line that is neither
    empty nor a comment and has at least two fields is a rule made of its
    first two fields; whatever follows them is ignored. *)
Theorem malformed_line_skipped (line : string) (m : BlocklistManager) (w : World) :
  (length (fields (stripped line)) < 2 →
     load_line line m w = (Ok tt, m, w)
     ∧ ∀ before after m0 w0,
         read_lines (before ++ line :: after) m0 w0
         = read_lines (before ++ after) m0 w0)
  ∧ (∀ a d more,
       line ≠ EmptyString → Str.at_ line 0 ≠ Some Str.hash →
       fields (stripped line) = a :: d :: more →
       load_line line m w
       = let '(p, m', w') := getOrCreateAddress a m w in
         (Ok tt, store (Str.tolower d) p m', w')).
Proof.
  split.
  - intros H. apply parse_line_few_fields in H. split.
    + rewrite load_line_parse, H. reflexivity.
    + intros before after m0 w0. rewrite !read_lines_app.
      destruct (read_lines before m0 w0) as [[[u|e] m'] w']; [|reflexivity].
      simpl. rewrite load_line_parse, H. reflexivity.
  - intros a d more Hne Hhash Hf. rewrite load_line_parse.
    unfold parse_line. destruct line as [|c t]; [congruence|].
    destruct (Ascii.eqb c Str.hash) eqn:E.
    { apply Ascii.eqb_eq in E. subst c. simpl in Hhash. congruence. }
    rewrite extract2_fields, Hf. reflexivity.
Qed.

Lemma malformed_line_skipped_witness :
  read_lines (["0.0.0.0 a.com"] ++ "lonely  " :: ["1.1.1.1 b.com"])
    (create hosts empty_world).1.2 empty_world
  = read_lines (["0.0.0.0 a.com"] ++ ["1.1.1.1 b.com"])
    (create hosts empty_world).1.2 empty_world.
Proof.
  apply (proj1 (malformed_line_skipped "lonely  "
                  (create hosts empty_world).1.2 empty_world)).
  vm_compute. lia.
Defined.

(** C3 as stated fails on a line with more than two fields: it is taken as
    a rule. *)
Lemma three_field_line_is_loaded :
  fields (stripped "0.0.0.0 a.com extra") = ["0.0.0.0"; "a.com"; "extra"]
  ∧ stats_on "0.0.0.0 a.com extra" = (1, 1)
  ∧ resolve_on "0.0.0.0 a.com extra" "a.com" = Ok (true, "0.0.0.0").
Proof. vm_compute. repeat split; reflexivity. Qed.

(** ** Interning and the loading loop *)

Lemma getOrCreateAddress_hit addr m w p :
  addressPool m !! addr = Some p → getOrCreateAddress addr m w = (p, m, w).
Proof. intros H. unfold getOrCreateAddress. rewrite H. reflexivity. Qed.

Lemma getOrCreateAddress_miss addr m w :
  addressPool m !! addr = None →
  getOrCreateAddress addr m w
  = ({| ptr := heap_top w; pointee := addr |},
     {| blocklist := blocklist m;
        addressPool := <[addr := {| ptr := heap_top w; pointee := addr |}]>
                         (addressPool m);
        blocklistPath := blocklistPath m;
        lastFileInfo := lastFileInfo m |},
     {| clock := clock w; disk := disk w; heap_top := S (heap_top w) |}).
Proof. intros H. unfold getOrCreateAddress. rewrite H. reflexivity. Qed.

(** What one stored rule does to the tables. *)
Lemma run_rule_tables m w r :
  ∃ p, addressPool (run_rule (m, w) r).1 !! r.1 = Some p
       ∧ (pool_ok m → pointee p = r.1)
       ∧ blocklist (run_rule (m, w) r).1
         = <[r.2 := {| targetAddress := p |}]> (blocklist m)
       ∧ addressPool m ⊆ addressPool (run_rule (m, w) r).1
       ∧ dom (addressPool (run_rule (m, w) r).1) = {[ r.1 ]} ∪ dom (addressPool m)
       ∧ (∀ a q, addressPool (run_rule (m, w) r).1 !! a = Some q →
                 addressPool m !! a = Some q ∨ (a = r.1 ∧ q = p ∧ pointee p = r.1))
       ∧ blocklistPath (run_rule (m, w) r).1 = blocklistPath m
       ∧ lastFileInfo (run_rule (m, w) r).1 = lastFileInfo m.
Proof.
  unfold run_rule. simpl.
  destruct (addressPool m !! r.1) as [p|] eqn:E.
  - rewrite (getOrCreateAddress_hit _ _ _ _ E). simpl. exists p.
    repeat split; try done.
    + intros Hp. now apply Hp.
    + apply (elem_of_dom_2 (D := gset string)) in E. set_solver.
    + intros a q Hq. now left.
  - rewrite (getOrCreateAddress_miss _ _ _ E). simpl.
    exists {| ptr := heap_top w; pointee := r.1 |}.
    repeat split; try done.
    + apply lookup_insert_eq.
    + now apply insert_subseteq.
    + apply dom_insert_L.
    + intros a q Hq. destruct (decide (a = r.1)) as [->|Hne].
      * rewrite lookup_insert_eq in Hq. right.
        split; [reflexivity|]. split; [congruence|reflexivity].
      * rewrite lookup_insert_ne in Hq by congruence. now left.
Qed.

Lemma run_rule_consistent m w r :
  consistent m → consistent (run_rule (m, w) r).1.
Proof.
  intros [Hp Hi].
  destruct (run_rule_tables m w r) as (p & H1 & H2 & H3 & H4 & _ & H5 & _).
  specialize (H2 Hp). split.
  - intros a q Hq. apply H5 in Hq as [Hq|(-> & -> & _)]; [now apply Hp|exact H2].
  - intros k e. rewrite H3. destruct (decide (r.2 = k)) as [->|Hne].
    + rewrite lookup_insert_eq. intros [= <-]. unfold address_of. simpl.
      now rewrite H2.
    + rewrite lookup_insert_ne by exact Hne. intros He.
      eapply lookup_weaken; [exact (Hi k e He)|exact H4].
Qed.

Lemma foldl_run_rule_consistent rs m w :
  consistent m → consistent (foldl run_rule (m, w) rs).1.
Proof.
  revert m w. induction rs as [|r rs IH]; intros m w H; simpl; [exact H|].
  destruct (run_rule (m, w) r) as [m1 w1] eqn:E.
  apply IH. replace m1 with (run_rule (m, w) r).1 by now rewrite E.
  now apply run_rule_consistent.
Qed.

Lemma read_lines_rules lines m w :
  read_lines lines m w
  = (Ok tt, (foldl run_rule (m, w) (omap parse_line lines)).1,
            (foldl run_rule (m, w) (omap parse_line lines)).2).
Proof.
  revert m w. induction lines as [|l ls IH]; intros m w; simpl; [reflexivity|].
  rewrite load_line_parse. destruct (parse_line l) as [[a d]|]; simpl.
  - unfold run_rule at 2 4. simpl.
    destruct (getOrCreateAddress a m w) as [[p m1] w1]. apply IH.
  - apply IH.
Qed.

(** Last occurrence wins. *)
Lemma foldl_run_rule_lookup rs m w k :
  pool_ok m →
  address_of <$> blocklist (foldl run_rule (m, w) rs).1 !! k
  = match last (filter (λ r, r.2 = k) rs) with
    | Some r => Some r.1
    | None => address_of <$> blocklist m !! k
    end.
Proof.
  revert m w. induction rs as [|r rs IH]; intros m w Hp; simpl; [reflexivity|].
  destruct (run_rule_tables m w r) as (p & H1 & H2 & H3 & _ & _ & H5 & _).
  specialize (H2 Hp).
  assert (pool_ok (run_rule (m, w) r).1) as Hp1.
  { intros a q Hq. apply H5 in Hq as [Hq|(-> & -> & _)]; [now apply Hp|exact H2]. }
  destruct (run_rule (m, w) r) as [m1 w1] eqn:E. simpl in *.
  rewrite (IH m1 w1 Hp1). rewrite H3.
  destruct (decide (r.2 = k)) as [Hk|Hk].
  - rewrite filter_cons_True by exact Hk. rewrite last_cons.
    destruct (last (filter (λ r0, r0.2 = k) rs)); [reflexivity|].
    rewrite Hk, lookup_insert_eq. simpl. unfold address_of. simpl.
    now rewrite H2.
  - rewrite filter_cons_False by exact Hk.
    rewrite lookup_insert_ne by exact Hk. reflexivity.
Qed.

Lemma foldl_run_rule_pool_dom rs m w :
  dom (addressPool (foldl run_rule (m, w) rs).1)
  = dom (addressPool m) ∪ list_to_set rs.*1.
Proof.
  revert m w. induction rs as [|r rs IH]; intros m w; simpl.
  - set_solver.
  - destruct (run_rule_tables m w r) as (p & _ & _ & _ & _ & H4 & _).
    destruct (run_rule (m, w) r) as [m1 w1] eqn:E. simpl in *.
    rewrite IH, H4. set_solver.
Qed.

Lemma foldl_run_rule_index_dom rs m w :
  dom (blocklist (foldl run_rule (m, w) rs).1)
  = dom (blocklist m) ∪ list_to_set rs.*2.
Proof.
  revert m w. induction rs as [|r rs IH]; intros m w; simpl.
  - set_solver.
  - destruct (run_rule_tables m w r) as (p & _ & _ & H3 & _).
    destruct (run_rule (m, w) r) as [m1 w1] eqn:E. simpl in *.
    rewrite IH, H3, dom_insert_L. set_solver.
Qed.

Lemma foldl_run_rule_pool_mono rs m w :
  addressPool m ⊆ addressPool (foldl run_rule (m, w) rs).1.
Proof.
  revert m w. induction rs as [|r rs IH]; intros m w; simpl; [done|].
  destruct (run_rule_tables m w r) as (p & _ & _ & _ & H4 & _).
  destruct (run_rule (m, w) r) as [m1 w1] eqn:E. simpl in *.
  etrans; [exact H4|apply IH].
Qed.

(** ** [loadBlocklist] *)

Lemma loadBlocklist_stat_fails m w :
  disk w (clock w) (blocklistPath m) = None →
  loadBlocklist m w = (Ok tt, m, advance 1 w).
Proof. intros H. unfold loadBlocklist, sys_stat. rewrite H. reflexivity. Qed.

Lemma loadBlocklist_open_fails m w f0 :
  disk w (clock w) (blocklistPath m) = Some f0 →
  disk w (clock w + 1) (blocklistPath m) ≫= data = None →
  loadBlocklist m w = (Ok tt, m, advance 1 (advance 1 w)).
Proof.
  intros H0 H1. unfold loadBlocklist, sys_stat, ifstream_open.
  rewrite H0. simpl. rewrite H1. reflexivity.
Qed.

Lemma loadBlocklist_readable m w f0 content :
  disk w (clock w) (blocklistPath m) = Some f0 →
  disk w (clock w + 1) (blocklistPath m) ≫= data = Some content →
  loadBlocklist m w
  = (Ok tt,
     (foldl run_rule (cleared m (meta f0), advance 1 (advance 1 w)) (rules content)).1,
     (foldl run_rule (cleared m (meta f0), advance 1 (advance 1 w)) (rules content)).2).
Proof.
  intros H0 H1. unfold loadBlocklist, sys_stat, ifstream_open.
  rewrite H0. simpl. rewrite H1. apply read_lines_rules.
Qed.

(** Every call either leaves the manager alone or rebuilds it from the
    rules of some file content. *)
Lemma loadBlocklist_cases m w :
  (loadBlocklist m w).1.1 = Ok tt
  ∧ ((loadBlocklist m w).1.2 = m
     ∨ ∃ st content w0,
         (loadBlocklist m w).1.2
         = (foldl run_rule (cleared m st, w0) (rules content)).1).
Proof.
  destruct (disk w (clock w) (blocklistPath m)) as [f0|] eqn:H0.
  - destruct (disk w (clock w + 1) (blocklistPath m) ≫= data) as [content|] eqn:H1.
    + rewrite (loadBlocklist_readable _ _ _ _ H0 H1). simpl.
      split; [reflexivity|]. right. eauto.
    + rewrite (loadBlocklist_open_fails _ _ _ H0 H1). simpl. auto.
  - rewrite (loadBlocklist_stat_fails _ _ H0). simpl. auto.
Qed.

Lemma cleared_consistent m st : consistent (cleared m st).
Proof. split; intros ? ?; simpl; rewrite lookup_empty; discriminate. Qed.

Lemma loadBlocklist_consistent m w :
  consistent m → consistent (loadBlocklist m w).1.2.
Proof.
  intros H. destruct (loadBlocklist_cases m w) as [_ [->|(st & c & w0 & ->)]].
  - exact H.
  - apply foldl_run_rule_consistent, cleared_consistent.
Qed.

Lemma checkDomain_manager d m w :
  (checkDomain d m w).1.2 = m
  ∨ ∃ w0, (checkDomain d m w).1.2 = (loadBlocklist m w0).1.2.
Proof.
  unfold checkDomain.
  destruct (shouldReload m w) as [[] w1]; simpl; [|now left].
  destruct (shouldReload m w1) as [[] w2]; simpl; [|now left].
  right. exists w2.
  destruct (loadBlocklist m w2) as [[[u|e] m'] w']; reflexivity.
Qed.

Lemma reachable_consistent m : reachable m → consistent m.
Proof.
  induction 1 as [path w|d m w _ IH|m w _ IH].
  - unfold create. apply loadBlocklist_consistent.
    split; intros ? ?; simpl; rewrite lookup_empty; discriminate.
  - destruct (checkDomain_manager d m w) as [->|[w0 ->]]; [exact IH|].
    now apply loadBlocklist_consistent.
  - now apply loadBlocklist_consistent.
Qed.

Lemma size_list_to_set_remove_dups (l : list string) :
  size (list_to_set l : gset string) = length (remove_dups l).
Proof.
  rewrite <- (size_list_to_set (C := gset string) (remove_dups l))
    by apply NoDup_remove_dups.
  f_equal. apply set_eq. intros x.
  rewrite !elem_of_list_to_set, elem_of_remove_dups. reflexivity.
Qed.

Lemma load_line_pool_mono line m w :
  addressPool m ⊆ addressPool (load_line line m w).1.2.
Proof.
  rewrite load_line_parse. destruct (parse_line line) as [[a d]|]; [|done].
  destruct (run_rule_tables m w (a, d)) as (p & _ & _ & _ & H & _).
  unfold run_rule in H. simpl in H.
  destruct (getOrCreateAddress a m w) as [[q m1] w1]. exact H.
Qed.

(** ** Fields of a line and of its stripped form *)

Lemma trailing_ws_isspace c :
  Str.mem c trailing_ws = true → Str.isspace c = true.
Proof. destruct c as [[] [] [] [] [] [] [] []]; vm_compute; congruence. Qed.

Lemma fields_all_space ws :
  all_chars Str.isspace ws = true → fields ws = [].
Proof.
  induction ws as [|c t IH]; simpl; [reflexivity|].
  intros H. apply andb_true_iff in H as [H1 H2]. rewrite H1. now apply IH.
Qed.

Lemma fields_app_space s ws :
  all_chars Str.isspace ws = true → fields (s +:+ ws) = fields s.
Proof.
  intros Hws. induction s as [|c t IH].
  - simpl. now apply fields_all_space.
  - change (String c t +:+ ws) with (String c (t +:+ ws)).
    rewrite !fields_cons, IH.
    destruct (Str.isspace c); [reflexivity|].
    destruct t as [|c' t'].
    + destruct ws as [|c' ws']; simpl; [reflexivity|].
      destruct (Str.isspace c'); reflexivity.
    + reflexivity.
Qed.

Lemma find_last_not_of_None s set :
  Str.find_last_not_of s set = None → all_chars (λ c, Str.mem c set) s = true.
Proof.
  induction s as [|a t IH]; simpl; [reflexivity|].
  destruct (Str.find_last_not_of t set); [discriminate|].
  destruct (Str.mem a set); [|discriminate]. intros _. now apply IH.
Qed.

Lemma stripped_split s :
  ∃ tail, s = stripped s +:+ tail
          ∧ all_chars (λ c, Str.mem c trailing_ws) tail = true.
Proof.
  unfold stripped. induction s as [|a t IH].
  - exists EmptyString. split; reflexivity.
  - cbn [Str.find_last_not_of].
    destruct (Str.find_last_not_of t trailing_ws) as [i|] eqn:F.
    + destruct IH as (tail & H1 & H2). exists tail. split; [|exact H2].
      change (String a t
              = String a (Str.prefix t (npos_plus_1 (Some i)) +:+ tail)).
      now rewrite <- H1.
    + apply find_last_not_of_None in F.
      destruct (Str.mem a trailing_ws) eqn:M.
      * exists (String a t). split; [reflexivity|].
        cbn [all_chars]. now rewrite M.
      * exists t. split; [destruct t; reflexivity|exact F].
Qed.

Lemma all_chars_impl (p q : ascii → bool) s :
  (∀ c, p c = true → q c = true) → all_chars p s = true → all_chars q s = true.
Proof.
  intros H. induction s as [|c t IH]; simpl; [reflexivity|].
  intros Hp. apply andb_true_iff in Hp as [H1 H2].
  now rewrite (H c H1), IH.
Qed.

Lemma fields_stripped s : fields (stripped s) = fields s.
Proof.
  destruct (stripped_split s) as (tail & H1 & H2).
  rewrite H1 at 2. symmetry. apply fields_app_space.
  eapply all_chars_impl; [apply trailing_ws_isspace|exact H2].
Qed.

Lemma parse_line_fields line :
  parse_line line =
  match line with
  | EmptyString => None
  | String c _ =>
      if Ascii.eqb c Str.hash then None
      else match fields line with
           | a :: d :: _ => Some (a, Str.tolower d)
           | _ => None
           end
  end.
Proof.
  unfold parse_line. destruct line as [|c t]; [reflexivity|].
  destruct (Ascii.eqb c Str.hash); [reflexivity|].
  rewrite extract2_fields, fields_stripped.
  destruct (fields (String c t)) as [|a [|d more]]; reflexivity.
Qed.

Lemma translate_tolower_char c :
  translate c upper_letters lower_letters = Str.tolower_char c.
Proof. destruct c as [[] [] [] [] [] [] [] []]; vm_compute; reflexivity. Qed.

Lemma lowercase_tolower s : lowercase s = Str.tolower s.
Proof.
  induction s as [|c t IH]; [reflexivity|].
  cbn [lowercase Str.tolower]. now rewrite translate_tolower_char, IH.
Qed.

Lemma parse_line_accepted line : parse_line line = accepted_line line.
Proof.
  rewrite parse_line_fields. unfold accepted_line.
  destruct line as [|c t]; [reflexivity|].
  destruct (Ascii.eqb c Str.hash); [reflexivity|].
  destruct (fields (String c t)) as [|a [|d more]]; try reflexivity.
  now rewrite lowercase_tolower.
Qed.

Lemma rules_accepted content : rules content = accepted_rules content.
Proof.
  unfold rules, accepted_rules.
  induction (getlines content) as [|l ls IH]; [reflexivity|].
  cbn [omap list_omap]. now rewrite parse_line_accepted, IH.
Qed.

(** ** C4: the last line of a duplicate key wins *)

(** C4. Let the rule file be statable and readable with bytes [content]
    when [loadBlocklist] runs.  Then the call returns normally and, for
    every key, the index maps the key to the address of the last accepted
    line of the file whose domain, in lowercase form, is that key, and
    holds no entry for a key that no accepted line carries.  In
    particular, after loading [0.0.0.0 x.com] followed by
    [9.9.9.9 x.com], resolving [x.com] gives [(true, "9.9.9.9")], and so
    it does when the later line spells the domain [X.COM]. *)
Theorem last_duplicate_wins (m : BlocklistManager) (w : World) (f0 : File)
    (content k : string) :
  disk w (clock w) (blocklistPath m) = Some f0 →
  disk w (clock w + 1) (blocklistPath m) ≫= data = Some content →
  (loadBlocklist m w).1.1 = Ok tt
  ∧ address_of <$> blocklist (loadBlocklist m w).1.2 !! k
    = fst <$> last (filter (λ r, r.2 = k) (accepted_rules content))
  ∧ resolve_on ("0.0.0.0 x.com" +:+ nl +:+ "9.9.9.9 x.com") "x.com"
    = Ok (true, "9.9.9.9")
  ∧ resolve_on ("0.0.0.0 x.com" +:+ nl +:+ "9.9.9.9 X.COM") "x.com"
    = Ok (true, "9.9.9.9").
Proof.
  intros H0 H1. rewrite (loadBlocklist_readable _ _ _ _ H0 H1). simpl.
  split; [reflexivity|].
  split; [|split; vm_compute; reflexivity].
  rewrite foldl_run_rule_lookup by apply cleared_consistent.
  rewrite rules_accepted.
  destruct (last _); simpl; [reflexivity|].
  rewrite lookup_empty. reflexivity.
Qed.

Lemma last_duplicate_wins_witness :
  address_of <$> blocklist
    (loadBlocklist (create hosts empty_world).1.2
       (steady_world hosts dup_content)).1.2 !! "x.com"
  = Some "9.9.9.9".
Proof.
  etrans.
  - exact (proj1 (proj2 (last_duplicate_wins (create hosts empty_world).1.2
      (steady_world hosts dup_content)
      {| meta := stat_of dup_content; data := Some dup_content |}
      dup_content "x.com" eq_refl eq_refl))).
  - vm_compute. reflexivity.
Defined.

(** ** C9: equal addresses share one handle *)

(** C9. In every manager the interface can produce, two index entries
    whose address strings are equal hold the same shared pointer (the same
    allocation), and it is the pointer the pool stores under that string.
    Interning returns the pooled pointer, leaving everything as it is,
    when the string is already in the pool; otherwise it allocates a new
    string, stores the pointer in the pool under the string and returns
    it. *)
Theorem equal_addresses_share_handle (m : BlocklistManager) :
  reachable m →
  (∀ k1 k2 e1 e2,
      blocklist m !! k1 = Some e1 → blocklist m !! k2 = Some e2 →
      address_of e1 = address_of e2 →
      targetAddress e1 = targetAddress e2
      ∧ ptr (targetAddress e1) = ptr (targetAddress e2)
      ∧ addressPool m !! address_of e1 = Some (targetAddress e1))
  ∧ (∀ addr w,
       match addressPool m !! addr with
       | Some p => getOrCreateAddress addr m w = (p, m, w)
       | None =>
           let p := {| ptr := heap_top w; pointee := addr |} in
           (getOrCreateAddress addr m w).1.1 = p
           ∧ addressPool (getOrCreateAddress addr m w).1.2
             = <[addr := p]> (addressPool m)
           ∧ blocklist (getOrCreateAddress addr m w).1.2 = blocklist m
           ∧ heap_top (getOrCreateAddress addr m w).2 = S (heap_top w)
       end).
Proof.
  intros Hr. apply reachable_consistent in Hr as [Hp Hi]. split.
  - intros k1 k2 e1 e2 H1 H2 Heq.
    pose proof (Hi _ _ H1) as P1. pose proof (Hi _ _ H2) as P2.
    rewrite <- Heq in P2. rewrite P1 in P2. injection P2 as P2.
    split; [exact P2|]. split; [now rewrite P2|exact P1].
  - intros addr w. destruct (addressPool m !! addr) as [p|] eqn:E.
    + now apply getOrCreateAddress_hit.
    + rewrite (getOrCreateAddress_miss _ _ _ E). simpl. repeat split.
Qed.

Lemma equal_addresses_share_handle_witness :
  let m := (create hosts (steady_world hosts shared_content)).1.2 in
  let e := entry_of 0 "0.0.0.0" in
  targetAddress e = targetAddress e
  ∧ ptr (targetAddress e) = ptr (targetAddress e)
  ∧ addressPool m !! address_of e = Some (targetAddress e).
Proof.
  intros m e.
  apply (proj1 (equal_addresses_share_handle m (reach_create _ _))
           "a.com" ".b.com" e e); vm_compute; reflexivity.
Defined.

(** ** C10: the pool keeps every address of the file *)

(** C10. Let the rule file be statable and readable with bytes [content]
    when [loadBlocklist] runs.  The pool then holds exactly the address
    strings of the rules of the file, so [getStats] reports as many unique
    addresses as the rules carry distinct address strings, whether or not
    a later rule overrode the key of an earlier one; no step of the loop
    removes a pool slot.  Two rules with one key and two addresses give
    one index entry and two pooled addresses. *)
Theorem pool_counts_distinct_addresses (m : BlocklistManager) (w : World)
    (f0 : File) (content : string) :
  disk w (clock w) (blocklistPath m) = Some f0 →
  disk w (clock w + 1) (blocklistPath m) ≫= data = Some content →
  dom (addressPool (loadBlocklist m w).1.2) = list_to_set (rules content).*1
  ∧ (getStats (loadBlocklist m w).1.2).2
    = length (remove_dups (rules content).*1)
  ∧ (getStats (loadBlocklist m w).1.2).1
    = length (remove_dups (rules content).*2)
  ∧ (∀ line m0 w0, addressPool m0 ⊆ addressPool (load_line line m0 w0).1.2)
  ∧ stats_on ("0.0.0.0 x.com" +:+ nl +:+ "9.9.9.9 x.com") = (1, 2).
Proof.
  intros H0 H1. rewrite (loadBlocklist_readable _ _ _ _ H0 H1). simpl.
  assert (dom (addressPool (foldl run_rule
            (cleared m (meta f0), advance 1 (advance 1 w)) (rules content)).1)
          = list_to_set (rules content).*1) as Hd.
  { rewrite foldl_run_rule_pool_dom. simpl. rewrite dom_empty_L. set_solver. }
  split; [exact Hd|]. split; [|split; [|split]].
  - rewrite <- size_list_to_set_remove_dups, <- Hd. symmetry. apply size_dom.
  - rewrite <- size_list_to_set_remove_dups.
    rewrite <- (size_dom (D := gset string)). f_equal.
    rewrite foldl_run_rule_index_dom. simpl. rewrite dom_empty_L. set_solver.
  - apply load_line_pool_mono.
  - vm_compute. reflexivity.
Qed.

Lemma pool_counts_distinct_addresses_witness :
  (getStats (loadBlocklist (create hosts empty_world).1.2
               (steady_world hosts dup_content)).1.2).2
  = length (remove_dups (rules dup_content).*1).
Proof.
  exact (proj1 (proj2 (pool_counts_distinct_addresses
    (create hosts empty_world).1.2 (steady_world hosts dup_content)
    {| meta := stat_of dup_content; data := Some dup_content |}
    dup_content eq_refl eq_refl))).
Defined.

Example dup_content_stats : stats_on dup_content = (2, 3).
Proof. vm_compute. reflexivity. Qed.

(** ** C6: a reload that cannot read the file *)

(** C6. When the [stat] of the rule file fails, or the file cannot be
    opened afterwards, [loadBlocklist] (and so [forceReload]) returns
    with the manager exactly as it was: the same index, the same pool and
    the same recorded file snapshot. *)
Theorem failed_reload_keeps_state (m : BlocklistManager) (w : World) :
  (sys_stat (blocklistPath m) w).1 = None
  ∨ (ifstream_open (blocklistPath m) (sys_stat (blocklistPath m) w).2).1 = None →
  (loadBlocklist m w).1.1 = Ok tt
  ∧ (loadBlocklist m w).1.2 = m
  ∧ (forceReload m w).1.2 = m
  ∧ blocklist (loadBlocklist m w).1.2 = blocklist m
  ∧ addressPool (loadBlocklist m w).1.2 = addressPool m
  ∧ lastFileInfo (loadBlocklist m w).1.2 = lastFileInfo m.
Proof.
  intros H.
  assert ((loadBlocklist m w).1.1 = Ok tt ∧ (loadBlocklist m w).1.2 = m) as [H1 H2].
  { unfold loadBlocklist, sys_stat, ifstream_open in *. simpl in H.
    destruct (disk w (clock w) (blocklistPath m)) as [f0|]; simpl in *.
    - destruct H as [H|H]; [discriminate|]. rewrite H. split; reflexivity.
    - split; reflexivity. }
  unfold forceReload. rewrite H2. repeat split. exact H1.
Qed.

Lemma failed_reload_keeps_state_witness :
  (loadBlocklist loaded_manager (locked_world hosts)).1.2 = loaded_manager.
Proof.
  apply (failed_reload_keeps_state loaded_manager (locked_world hosts)).
  right. vm_compute. reflexivity.
Defined.

(** ** C7: when to reload *)

Lemma same_stat_true a b :
  same_stat a b = true ↔
  st_size a = st_size b
  ∧ tv_sec (st_mtim a) = tv_sec (st_mtim b)
  ∧ tv_nsec (st_mtim a) = tv_nsec (st_mtim b).
Proof.
  unfold same_stat. rewrite !andb_true_iff, !bool_decide_eq_true. tauto.
Qed.

Lemma file_changed_false st last :
  file_changed st last = false ↔
  st_size st = fileSize last
  ∧ tv_sec (st_mtim st) = tv_sec (modTime last)
  ∧ tv_nsec (st_mtim st) = tv_nsec (modTime last).
Proof.
  unfold file_changed. rewrite !orb_false_iff, !negb_false_iff,
    !bool_decide_eq_true. tauto.
Qed.

(** C7. [shouldReload] answers [false] when the [stat] fails, and [false]
    when the size and the modification time (seconds and nanoseconds) are
    those of the recorded snapshot.  When they differ, it answers [true]
    exactly when the next [stat] and the one taken after the delay of
    1000 microseconds both succeed and agree on size, seconds and
    nanoseconds. *)
Theorem shouldReload_decision (m : BlocklistManager) (w : World) :
  let s0 := meta <$> disk w (clock w) (blocklistPath m) in
  let s1 := meta <$> disk w (clock w + 1) (blocklistPath m) in
  let s2 := meta <$> disk w (clock w + 1 + 1 + 1000) (blocklistPath m) in
  (s0 = None → (shouldReload m w).1 = false)
  ∧ (∀ st, s0 = Some st →
       st_size st = fileSize (lastFileInfo m) →
       tv_sec (st_mtim st) = tv_sec (modTime (lastFileInfo m)) →
       tv_nsec (st_mtim st) = tv_nsec (modTime (lastFileInfo m)) →
       (shouldReload m w).1 = false)
  ∧ (∀ st, s0 = Some st →
       ¬ (st_size st = fileSize (lastFileInfo m)
          ∧ tv_sec (st_mtim st) = tv_sec (modTime (lastFileInfo m))
          ∧ tv_nsec (st_mtim st) = tv_nsec (modTime (lastFileInfo m))) →
       ((shouldReload m w).1 = true ↔
        ∃ a b, s1 = Some a ∧ s2 = Some b
               ∧ st_size a = st_size b
               ∧ tv_sec (st_mtim a) = tv_sec (st_mtim b)
               ∧ tv_nsec (st_mtim a) = tv_nsec (st_mtim b))).
Proof.
  intros s0 s1 s2. unfold shouldReload, sys_stat. fold s0.
  split; [|split].
  - intros ->. reflexivity.
  - intros st -> H1 H2 H3.
    assert (file_changed st (lastFileInfo m) = false) as ->
      by (apply file_changed_false; auto).
    reflexivity.
  - intros st -> Hd.
    assert (file_changed st (lastFileInfo m) = true) as ->.
    { destruct (file_changed st (lastFileInfo m)) eqn:E; [reflexivity|].
      apply file_changed_false in E. contradiction. }
    simpl. unfold isFileStable, sys_stat, usleep. simpl. fold s1.
    destruct s1 as [a|]; simpl.
    + fold s2. destruct s2 as [b|]; simpl.
      * destruct (same_stat a b) eqn:E; simpl.
        -- split; [intros _|reflexivity]. apply same_stat_true in E.
           exists a, b. tauto.
        -- split; [discriminate|]. intros (a' & b' & [= <-] & [= <-] & H).
           apply same_stat_true in H. congruence.
      * split; [discriminate|]. intros (a' & b' & _ & [=] & _).
    + split; [discriminate|]. intros (a' & b' & [=] & _).
Qed.

Lemma shouldReload_decision_witness :
  (shouldReload loaded_manager empty_world).1 = false.
Proof.
  apply (shouldReload_decision loaded_manager empty_world). reflexivity.
Defined.

Example shouldReload_steady :
  (shouldReload loaded_manager (steady_world hosts "0.0.0.0 a.com")).1 = false
  ∧ (shouldReload loaded_manager (steady_world hosts "0.0.0.0 b.com" )).1 = false
  ∧ (shouldReload loaded_manager (steady_world hosts "0.0.0.0 abc.com")).1 = true
  ∧ (shouldReload loaded_manager (busy_world hosts)).1 = false.
Proof. vm_compute. repeat split; reflexivity. Qed.

(** ** C8: the case of the domain argument *)

(** C8. For every domain string, manager and world, [checkDomain] on the
    domain and on its lowercase form give the same answer (and leave the
    same manager and world); so [EXAMPLE.com] and [example.com] resolve
    alike, to the rule for [example.com] when there is one, also when
    the rule file spells the domain in upper case. *)
Theorem checkDomain_case_insensitive :
  (∀ d m w, checkDomain d m w = checkDomain (Str.tolower d) m w)
  ∧ (∀ m w, checkDomain "EXAMPLE.com" m w = checkDomain "example.com" m w)
  ∧ resolve_on "0.0.0.0 example.com" "EXAMPLE.com" = Ok (true, "0.0.0.0")
  ∧ resolve_on "0.0.0.0 Example.COM" "eXaMpLe.com" = Ok (true, "0.0.0.0").
Proof.
  assert (∀ d m w, checkDomain d m w = checkDomain (Str.tolower d) m w) as H.
  { intros d m w. unfold checkDomain. rewrite tolower_idem. reflexivity. }
  split; [exact H|]. split; [|split; vm_compute; reflexivity].
  intros m w. rewrite (H "EXAMPLE.com"), (H "example.com"). reflexivity.
Qed.

(** ** C5: always an answer *)

Lemma checkDomain_result d m w :
  (checkDomain d m w).1.1
  = lookupDomain (blocklist (checkDomain d m w).1.2) (Str.tolower d).
Proof.
  unfold checkDomain.
  destruct (shouldReload m w) as [[] w1]; simpl; [|reflexivity].
  destruct (shouldReload m w1) as [[] w2]; simpl; [|reflexivity].
  destruct (loadBlocklist_cases m w2) as [H _].
  destruct (loadBlocklist m w2) as [[[u|e] m'] w']; simpl in *;
    [reflexivity|discriminate].
Qed.

Lemma shouldReload_disk m w : disk (shouldReload m w).2 = disk w.
Proof.
  unfold shouldReload, isFileStable, sys_stat, usleep. simpl.
  destruct (disk w (clock w) (blocklistPath m)); simpl; [|reflexivity].
  destruct (negb _); simpl; [reflexivity|].
  destruct (disk w (clock w + 1) (blocklistPath m)); simpl; [|reflexivity].
  destruct (disk w (clock w + 1 + 1 + 1000) (blocklistPath m)); simpl;
    [|reflexivity].
  destruct (negb _); reflexivity.
Qed.

Lemma loadBlocklist_unavailable m w :
  (∀ t, disk w t (blocklistPath m) ≫= data = None) →
  (loadBlocklist m w).1.2 = m.
Proof.
  intros H. destruct (disk w (clock w) (blocklistPath m)) as [f0|] eqn:H0.
  - rewrite (loadBlocklist_open_fails _ _ _ H0 (H _)). reflexivity.
  - rewrite (loadBlocklist_stat_fails _ _ H0). reflexivity.
Qed.

Lemma checkDomain_unavailable d m w :
  (∀ t, disk w t (blocklistPath m) ≫= data = None) →
  (checkDomain d m w).1.2 = m.
Proof.
  intros H. unfold checkDomain.
  pose proof (shouldReload_disk m w) as D1.
  destruct (shouldReload m w) as [[] w1]; simpl in *; [|reflexivity].
  pose proof (shouldReload_disk m w1) as D2.
  destruct (shouldReload m w1) as [[] w2]; simpl in *; [|reflexivity].
  assert ((loadBlocklist m w2).1.2 = m) as E.
  { apply loadBlocklist_unavailable. intros t. rewrite D2, D1. apply H. }
  destruct (loadBlocklist m w2) as [[[u|e] m'] w']; exact E.
Qed.

Lemma spec_lookup_no_match bl d :
  (∀ k, is_Some (bl !! k) → ¬ key_matches k d) → spec_lookup bl d = (false, EmptyString).
Proof.
  intros H. unfold spec_lookup.
  assert (∀ k, key_matches k d → bl !! k = None) as Hn.
  { intros k Hk. destruct (bl !! k) as [e|] eqn:E; [|reflexivity].
    exfalso. apply (H k); [rewrite E; eauto|exact Hk]. }
  rewrite (Hn d) by now left.
  assert (first_hit bl (candidates d) = None) as ->; [|reflexivity].
  apply first_hit_None. intros c Hc. apply Hn. right.
  now apply elem_of_candidates.
Qed.

(** C5. [checkDomain] returns a [(blocked, address)] pair for every input
    and never raises.  Whenever the index it answers from has no key
    matching the lowercased domain (neither the domain itself nor one of
    its parts from a separator on), the pair is [(false, "")].  This is so
    in particular for a manager constructed while the rule file was
    missing or unreadable, as long as the file stays so: its index is
    empty and every domain resolves to [(false, "")]. *)
Theorem checkDomain_total_fail_open (d : string) (m : BlocklistManager) (w : World) :
  returns (checkDomain d m w).1.1
  ∧ ((∀ k, is_Some (blocklist (checkDomain d m w).1.2 !! k) →
           ¬ key_matches k (Str.tolower d)) →
     (checkDomain d m w).1.1 = Ok (false, EmptyString))
  ∧ (∀ path w0,
       (∀ t, disk w0 t path ≫= data = None) →
       (∀ t, disk w t path ≫= data = None) →
       blocklist (create path w0).1.2 = ∅
       ∧ (checkDomain d (create path w0).1.2 w).1.1 = Ok (false, EmptyString)).
Proof.
  split; [|split].
  - rewrite checkDomain_result, lookupDomain_spec. eexists. reflexivity.
  - intros H. rewrite checkDomain_result, lookupDomain_spec.
    now rewrite spec_lookup_no_match.
  - intros path w0 H0 H1.
    assert ((create path w0).1.2
            = {| blocklist := ∅; addressPool := ∅; blocklistPath := path;
                 lastFileInfo := {| modTime := {| tv_sec := 0; tv_nsec := 0 |};
                                    fileSize := 0 |} |}) as ->.
    { unfold create. now apply loadBlocklist_unavailable. }
    split; [reflexivity|].
    rewrite checkDomain_result, lookupDomain_spec.
    rewrite checkDomain_unavailable by exact H1. simpl. f_equal.
    apply spec_lookup_no_match. intros k [e He]. simpl in He.
    rewrite lookup_empty in He. discriminate.
Qed.

Lemma checkDomain_total_fail_open_witness :
  (checkDomain "ads.example.com" (create hosts (locked_world hosts)).1.2
     empty_world).1.1 = Ok (false, EmptyString).
Proof.
  apply (proj2 (proj2 (checkDomain_total_fail_open "ads.example.com"
           (create hosts (locked_world hosts)).1.2 empty_world))
           hosts (locked_world hosts)).
  - intros t. reflexivity.
  - intros t. reflexivity.
Defined.

(** ** C1: what a wildcard rule covers *)




Example bare_domain_with_only_the_wildcard :
  (checkDomain "Example.com" wildcard_manager
     (steady_world hosts "0.0.0.0 .example.com")).1.1 = Ok (false, "").
Proof. vm_compute. reflexivity. Qed.

(** * Further properties of the code *)

(** ** Which keys a lookup consults *)

Lemma at_slice_from d i j : Str.at_ (slice_from d i) j = Str.at_ d (i + j).
Proof.
  revert d. induction i as [|i IH]; intros d; simpl.
  - destruct d; reflexivity.
  - destruct d as [|a t]; simpl; [destruct j; reflexivity|apply IH].
Qed.

Lemma key_matches_dot k d :
  key_matches k d → k = d ∨ Str.at_ k 0 = Some Str.dot.
Proof.
  intros [->|(i & Hi & ->)]; [now left|right].
  rewrite at_slice_from, Nat.add_0_r. exact Hi.
Qed.

Lemma first_hit_Some bl (cs : list string) e :
  first_hit bl cs = Some e → ∃ c, c ∈ cs ∧ bl !! c = Some e.
Proof.
  induction cs as [|c cs IH]; simpl; [discriminate|].
  destruct (bl !! c) as [h|] eqn:E.
  - intros [= <-]. exists c. split; [left|exact E].
  - intros H. destruct (IH H) as (c' & Hc' & He). exists c'. split; [now right|exact He].
Qed.

(** A rule whose key has no leading dot is an exact rule: storing it
    changes the answer for no domain other than the key itself. *)
Theorem exact_key_blocks_only_itself (bl : gmap string BlockEntry)
    (k d : string) (e : BlockEntry) :
  Str.at_ k 0 ≠ Some Str.dot → d ≠ k →
  lookupDomain (<[k := e]> bl) d = lookupDomain bl d.
Proof.
  intros Hk Hd. rewrite !lookupDomain_spec. f_equal. unfold spec_lookup.
  rewrite lookup_insert_ne by congruence.
  rewrite first_hit_insert_ne; [reflexivity|].
  intros c Hc ->. apply elem_of_candidates in Hc.
  destruct (key_matches_dot k d) as [->|H]; [now right|congruence|contradiction].
Qed.

Lemma exact_key_blocks_only_itself_witness :
  lookupDomain (<[ "facebook.com" := entry_of 0 "0.0.0.0" ]> ∅) "www.facebook.com"
  = lookupDomain ∅ "www.facebook.com".
Proof.
  apply exact_key_blocks_only_itself; [vm_compute|]; discriminate.
Defined.

(** A domain is reported blocked exactly when the index holds a key that
    matches it (the domain itself, or its part from one of its separators
    on), and the address returned is the address of such a key. *)
Theorem blocked_iff_key_matches (bl : gmap string BlockEntry) (d : string) :
  ((∃ a, lookupDomain bl d = Ok (true, a))
   ↔ ∃ k, is_Some (bl !! k) ∧ key_matches k d)
  ∧ (∀ a, lookupDomain bl d = Ok (true, a) →
          ∃ k e, bl !! k = Some e ∧ key_matches k d ∧ address_of e = a).
Proof.
  assert (∀ a, lookupDomain bl d = Ok (true, a) →
          ∃ k e, bl !! k = Some e ∧ key_matches k d ∧ address_of e = a) as Hsound.
  { intros a. rewrite lookupDomain_spec. unfold spec_lookup. intros [= H].
    destruct (bl !! d) as [h|] eqn:E.
    - exists d, h. injection H as <-. split; [exact E|]. split; [now left|reflexivity].
    - destruct (first_hit bl (candidates d)) as [h|] eqn:F; simpl in H; [|discriminate].
      injection H as <-. apply first_hit_Some in F as (c & Hc & He).
      exists c, h. split; [exact He|]. split; [|reflexivity].
      right. now apply elem_of_candidates. }
  split; [|exact Hsound]. split.
  - intros [a Ha]. destruct (Hsound a Ha) as (k & e & He & Hk & _).
    exists k. rewrite He. eauto.
  - intros (k & [e He] & Hk). rewrite lookupDomain_spec. unfold spec_lookup.
    destruct (bl !! d) as [h|] eqn:E; [eauto|].
    destruct (first_hit bl (candidates d)) as [h|] eqn:F; simpl; [eauto|].
    exfalso. destruct Hk as [->|Hk]; [congruence|].
    apply elem_of_candidates in Hk.
    rewrite first_hit_None in F. rewrite (F k Hk) in He. discriminate.
Qed.

Lemma blocked_iff_key_matches_witness :
  ∃ k e, ({[ ".example.com" := entry_of 0 "0.0.0.0" ]} : gmap string BlockEntry)
           !! k = Some e
         ∧ key_matches k "ads.example.com" ∧ address_of e = "0.0.0.0".
Proof.
  apply (proj2 (blocked_iff_key_matches
                  {[ ".example.com" := entry_of 0 "0.0.0.0" ]} "ads.example.com")).
  vm_compute. reflexivity.
Defined.

(** ** Domains written with a trailing dot *)

Lemma last_char_app s c : last_char (s +:+ String c EmptyString) = Some c.
Proof.
  induction s as [|a s IH]; [reflexivity|].
  simpl. rewrite IH. destruct (s +:+ String c EmptyString) eqn:E; [|reflexivity].
  destruct s; discriminate.
Qed.

Lemma slice_from_app_l s t i :
  i ≤ Str.size s → slice_from (s +:+ t) i = slice_from s i +:+ t.
Proof.
  revert s. induction i as [|i IH]; intros s H.
  - destruct s; simpl; [destruct t|]; reflexivity.
  - destruct s as [|a s]; simpl in *; [lia|]. apply IH. lia.
Qed.

(** The lookup does not strip the dot that ends a fully qualified name:
    when no key of the index ends with a dot, every domain written with a
    trailing dot is reported not blocked, whatever rules exist for the
    domain without it. *)
Theorem trailing_dot_is_not_matched (bl : gmap string BlockEntry) (d : string) :
  (∀ k, is_Some (bl !! k) → last_char k ≠ Some Str.dot) →
  lookupDomain bl (d +:+ ".") = Ok (false, EmptyString).
Proof.
  intros H. rewrite lookupDomain_spec. f_equal.
  apply spec_lookup_no_match. intros k Hk Hm. apply (H k Hk).
  destruct Hm as [->|(i & Hi & ->)]; [apply last_char_app|].
  destruct (decide (i ≤ Str.size d)) as [Hle|Hgt].
  - rewrite slice_from_app_l by exact Hle. apply last_char_app.
  - apply at_lt in Hi. rewrite size_app in Hi. simpl in Hi. lia.
Qed.

Lemma trailing_dot_is_not_matched_witness :
  lookupDomain {[ ".example.com" := entry_of 0 "0.0.0.0" ]} ("ads.example.com" +:+ ".")
  = Ok (false, EmptyString).
Proof.
  apply trailing_dot_is_not_matched. intros k [e He].
  destruct (decide (k = ".example.com")) as [->|Hne].
  - vm_compute. discriminate.
  - rewrite lookup_singleton_ne in He by congruence. discriminate.
Defined.

(** ** The shape of what the parser stores *)

Lemma read_word_token s :
  all_chars (λ c, negb (Str.isspace c)) (read_word s).1 = true.
Proof.
  induction s as [|c t IH]; simpl; [reflexivity|].
  destruct (Str.isspace c) eqn:E; [reflexivity|].
  destruct (read_word t) as [w r]. simpl in *. now rewrite E, IH.
Qed.

Lemma extract_token s w r : extract s = (Some w, r) → token w.
Proof.
  unfold extract. pose proof (read_word_token (skipws s)) as H.
  destruct (read_word (skipws s)) as [[|c x] r']; [discriminate|].
  intros [= <- <-]. split; [discriminate|exact H].
Qed.

Lemma extract2_tokens line a d : extract2 line = Some (a, d) → token a ∧ token d.
Proof.
  unfold extract2. destruct (extract line) as [[x|] r] eqn:E1; [|discriminate].
  destruct (extract r) as [[y|] r'] eqn:E2; [|discriminate].
  intros [= <- <-]. split; eapply extract_token; eauto.
Qed.

Lemma tolower_char_space c :
  Str.isspace (Str.tolower_char c) = Str.isspace c.
Proof. destruct c as [[] [] [] [] [] [] [] []]; reflexivity. Qed.

Lemma tolower_token s : token s → token (Str.tolower s).
Proof.
  intros [Hne Hall]. split.
  - destruct s; [congruence|discriminate].
  - clear Hne. induction s as [|c t IH]; simpl in *; [reflexivity|].
    apply andb_true_iff in Hall as [H1 H2].
    now rewrite tolower_char_space, H1, IH.
Qed.

Lemma parse_line_shape line a k :
  parse_line line = Some (a, k) → token a ∧ token k ∧ Str.tolower k = k.
Proof.
  unfold parse_line. destruct line as [|c t]; [discriminate|].
  destruct (Ascii.eqb c Str.hash); [discriminate|].
  destruct (extract2 (stripped (String c t))) as [[x y]|] eqn:E; [|discriminate].
  simpl. intros [= <- <-]. apply extract2_tokens in E as [Hx Hy].
  split; [exact Hx|]. split; [now apply tolower_token|apply tolower_idem].
Qed.

Lemma elem_of_rules content r :
  r ∈ rules content → ∃ line, line ∈ getlines content ∧ parse_line line = Some r.
Proof. unfold rules. rewrite list_elem_of_omap. tauto. Qed.

Lemma loaded_tables_wf m0 w0 content :
  blocklist m0 = ∅ → addressPool m0 = ∅ →
  tables_wf (foldl run_rule (m0, w0) (rules content)).1.
Proof.
  intros Hb Hp. split.
  - intros k Hk. apply (elem_of_dom (D := gset string)) in Hk.
    rewrite foldl_run_rule_index_dom, Hb, dom_empty_L in Hk.
    apply elem_of_union in Hk as [Hk|Hk]; [now apply not_elem_of_empty in Hk|].
    apply elem_of_list_to_set, list_elem_of_fmap in Hk as ([a k'] & -> & Hr).
    apply elem_of_rules in Hr as (line & _ & Hl).
    apply parse_line_shape in Hl. simpl. tauto.
  - intros a Ha. apply (elem_of_dom (D := gset string)) in Ha.
    rewrite foldl_run_rule_pool_dom, Hp, dom_empty_L in Ha.
    apply elem_of_union in Ha as [Ha|Ha]; [now apply not_elem_of_empty in Ha|].
    apply elem_of_list_to_set, list_elem_of_fmap in Ha as ([a' k] & -> & Hr).
    apply elem_of_rules in Hr as (line & _ & Hl).
    apply parse_line_shape in Hl. simpl. tauto.
Qed.

Lemma loadBlocklist_tables_wf m w :
  tables_wf m → tables_wf (loadBlocklist m w).1.2.
Proof.
  intros H. destruct (loadBlocklist_cases m w) as [_ [->|(st & c & w0 & ->)]].
  - exact H.
  - apply loaded_tables_wf; auto.
Qed.

(** In every manager the interface can produce, each index key is a
    lowercase, non-empty string without white space, and each pooled
    address is a non-empty string without white space. *)
Theorem reachable_tables_wf (m : BlocklistManager) :
  reachable m → tables_wf m.
Proof.
  induction 1 as [path w|d m w _ IH|m w _ IH].
  - unfold create. apply loadBlocklist_tables_wf.
    split; intros ? [? H]; simpl in H; rewrite lookup_empty in H; discriminate.
  - destruct (checkDomain_manager d m w) as [->|[w0 ->]]; [exact IH|].
    now apply loadBlocklist_tables_wf.
  - now apply loadBlocklist_tables_wf.
Qed.

Lemma reachable_tables_wf_witness :
  tables_wf (create hosts (steady_world hosts shared_content)).1.2.
Proof. apply reachable_tables_wf, reach_create. Defined.

(** ** Trailing white space of a line *)

(** White space at the end of a line (spaces, tabs, a carriage return
    left by a CRLF line ending, form feeds) never changes what the line
    loads: the loop body acts on the line with and without it alike. *)
Theorem trailing_space_is_ignored (line ws : string) (m : BlocklistManager)
    (w : World) :
  all_chars Str.isspace ws = true →
  load_line (line +:+ ws) m w = load_line line m w.
Proof.
  intros Hws. rewrite !load_line_parse.
  assert (parse_line (line +:+ ws) = parse_line line) as ->; [|reflexivity].
  rewrite !parse_line_fields. destruct line as [|c t].
  - change (EmptyString +:+ ws) with ws. destruct ws as [|c ws']; [reflexivity|].
    destruct (Ascii.eqb c Str.hash); [reflexivity|].
    now rewrite (fields_all_space _ Hws).
  - change (String c t +:+ ws) with (String c (t +:+ ws)). cbv beta iota.
    destruct (Ascii.eqb c Str.hash); [reflexivity|].
    change (String c (t +:+ ws)) with (String c t +:+ ws).
    now rewrite fields_app_space.
Qed.

Lemma trailing_space_is_ignored_witness :
  load_line ("0.0.0.0 a.com" +:+ String (Ascii.ascii_of_nat 13) " ")
    loaded_manager empty_world
  = load_line "0.0.0.0 a.com" loaded_manager empty_world.
Proof. apply trailing_space_is_ignored. reflexivity. Defined.

(** ** What a load does to the world and to the snapshot *)

Lemma run_rule_world m w r :
  disk (run_rule (m, w) r).2 = disk w
  ∧ clock (run_rule (m, w) r).2 = clock w
  ∧ heap_top (run_rule (m, w) r).2 + size (addressPool m)
    = heap_top w + size (addressPool (run_rule (m, w) r).1).
Proof.
  unfold run_rule. simpl. destruct (addressPool m !! r.1) as [p|] eqn:E.
  - rewrite (getOrCreateAddress_hit _ _ _ _ E). simpl. repeat split.
  - rewrite (getOrCreateAddress_miss _ _ _ E). simpl.
    rewrite map_size_insert_None by exact E. repeat split. lia.
Qed.

Lemma foldl_run_rule_world rs m w :
  disk (foldl run_rule (m, w) rs).2 = disk w
  ∧ clock (foldl run_rule (m, w) rs).2 = clock w
  ∧ heap_top (foldl run_rule (m, w) rs).2 + size (addressPool m)
    = heap_top w + size (addressPool (foldl run_rule (m, w) rs).1).
Proof.
  revert m w. induction rs as [|r rs IH]; intros m w; simpl.
  - repeat split.
  - destruct (run_rule_world m w r) as (H1 & H2 & H3).
    destruct (run_rule (m, w) r) as [m1 w1]. simpl in *.
    destruct (IH m1 w1) as (I1 & I2 & I3).
    rewrite I1, I2, H1, H2. repeat split. lia.
Qed.

Lemma foldl_run_rule_fixed rs m w :
  blocklistPath (foldl run_rule (m, w) rs).1 = blocklistPath m
  ∧ lastFileInfo (foldl run_rule (m, w) rs).1 = lastFileInfo m.
Proof.
  revert m w. induction rs as [|r rs IH]; intros m w; simpl; [split; reflexivity|].
  destruct (run_rule_tables m w r) as (p & _ & _ & _ & _ & _ & _ & H1 & H2).
  destruct (run_rule (m, w) r) as [m1 w1]. simpl in *.
  destruct (IH m1 w1) as [I1 I2]. rewrite I1, I2. split; assumption.
Qed.

(** A successful load performs exactly one allocation per distinct
    address string of the file's rules, however many rules share it. *)
Theorem one_allocation_per_address (m : BlocklistManager) (w : World)
    (f0 : File) (content : string) :
  disk w (clock w) (blocklistPath m) = Some f0 →
  disk w (clock w + 1) (blocklistPath m) ≫= data = Some content →
  heap_top (loadBlocklist m w).2
  = heap_top w + length (remove_dups (rules content).*1).
Proof.
  intros H0 H1. rewrite (loadBlocklist_readable _ _ _ _ H0 H1). simpl.
  destruct (foldl_run_rule_world (rules content) (cleared m (meta f0))
              (advance 1 (advance 1 w))) as (_ & _ & H).
  simpl in H. rewrite map_size_empty in H. rewrite Nat.add_0_r in H. rewrite H.
  f_equal. rewrite <- size_list_to_set_remove_dups.
  rewrite <- (size_dom (D := gset string)). f_equal.
  rewrite foldl_run_rule_pool_dom. simpl. rewrite dom_empty_L. set_solver.
Qed.

Lemma one_allocation_per_address_witness :
  heap_top (loadBlocklist loaded_manager (steady_world hosts shared_content)).2
  = heap_top (steady_world hosts shared_content)
    + length (remove_dups (rules shared_content).*1).
Proof.
  apply (one_allocation_per_address loaded_manager
           (steady_world hosts shared_content)
           {| meta := stat_of shared_content; data := Some shared_content |});
    reflexivity.
Defined.

(** ** Every rule of the file takes effect *)

(** After a successful load, the domain of every rule of the file is
    reported blocked, with the address of a rule of the file for that
    domain. *)
Theorem every_rule_is_effective (m : BlocklistManager) (w : World)
    (f0 : File) (content a k : string) :
  disk w (clock w) (blocklistPath m) = Some f0 →
  disk w (clock w + 1) (blocklistPath m) ≫= data = Some content →
  (a, k) ∈ rules content →
  ∃ a', lookupDomain (blocklist (loadBlocklist m w).1.2) k = Ok (true, a')
        ∧ (a', k) ∈ rules content.
Proof.
  intros H0 H1 Hr. rewrite (loadBlocklist_readable _ _ _ _ H0 H1). simpl.
  pose proof (foldl_run_rule_lookup (rules content) (cleared m (meta f0))
                (advance 1 (advance 1 w)) k
                (proj1 (cleared_consistent m (meta f0)))) as HL.
  assert ((a, k) ∈ filter (λ r, r.2 = k) (rules content)) as Hf
    by (apply list_elem_of_filter; split; [reflexivity|exact Hr]).
  destruct (last (filter (λ r, r.2 = k) (rules content))) as [[a' k']|] eqn:EL.
  - apply last_Some_elem_of, list_elem_of_filter in EL as [Hk Hin].
    simpl in Hk. subst k'. exists a'. split; [|exact Hin].
    unfold lookupDomain.
    destruct (blocklist _ !! k) as [e|]; simpl in HL; [|discriminate].
    injection HL as <-. reflexivity.
  - apply last_None in EL. rewrite EL in Hf. inversion Hf.
Qed.

Lemma every_rule_is_effective_witness :
  ∃ a', lookupDomain (blocklist (loadBlocklist loaded_manager
                                   (steady_world hosts dup_content)).1.2) "x.com"
        = Ok (true, a')
        ∧ (a', "x.com") ∈ rules dup_content.
Proof.
  apply (every_rule_is_effective loaded_manager (steady_world hosts dup_content)
           {| meta := stat_of dup_content; data := Some dup_content |}
           dup_content "0.0.0.0" "x.com"); [reflexivity..|].
  vm_compute. left.
Defined.

(** ** Reloading the same bytes *)

Lemma first_hit_ext (bl1 bl2 : gmap string BlockEntry) (cs : list string) :
  (∀ k, address_of <$> bl1 !! k = address_of <$> bl2 !! k) →
  answer (first_hit bl1 cs) = answer (first_hit bl2 cs).
Proof.
  intros H. induction cs as [|c cs IH]; simpl; [reflexivity|].
  specialize (H c). destruct (bl1 !! c), (bl2 !! c); simpl in *;
    try discriminate; [|exact IH]. injection H as ->. reflexivity.
Qed.

Lemma spec_lookup_ext (bl1 bl2 : gmap string BlockEntry) d :
  (∀ k, address_of <$> bl1 !! k = address_of <$> bl2 !! k) →
  spec_lookup bl1 d = spec_lookup bl2 d.
Proof.
  intros H. unfold spec_lookup. pose proof (H d) as Hd.
  destruct (bl1 !! d), (bl2 !! d); simpl in *; try discriminate.
  - injection Hd as ->. reflexivity.
  - now apply first_hit_ext.
Qed.

(** What a successful load builds depends on the bytes read only: two
    loads that read the same bytes, from whatever earlier states, give
    indexes that map every key to the same address, answer every lookup
    alike and report the same statistics. *)
Theorem reload_depends_on_content_only (m1 m2 : BlocklistManager) (w1 w2 : World)
    (f1 f2 : File) (content : string) :
  disk w1 (clock w1) (blocklistPath m1) = Some f1 →
  disk w1 (clock w1 + 1) (blocklistPath m1) ≫= data = Some content →
  disk w2 (clock w2) (blocklistPath m2) = Some f2 →
  disk w2 (clock w2 + 1) (blocklistPath m2) ≫= data = Some content →
  (∀ k, address_of <$> blocklist (loadBlocklist m1 w1).1.2 !! k
        = address_of <$> blocklist (loadBlocklist m2 w2).1.2 !! k)
  ∧ (∀ d, lookupDomain (blocklist (loadBlocklist m1 w1).1.2) d
          = lookupDomain (blocklist (loadBlocklist m2 w2).1.2) d)
  ∧ getStats (loadBlocklist m1 w1).1.2 = getStats (loadBlocklist m2 w2).1.2.
Proof.
  intros A0 A1 B0 B1.
  rewrite (loadBlocklist_readable _ _ _ _ A0 A1),
          (loadBlocklist_readable _ _ _ _ B0 B1). simpl.
  assert (∀ k, address_of <$> blocklist (foldl run_rule
                 (cleared m1 (meta f1), advance 1 (advance 1 w1)) (rules content)).1 !! k
               = address_of <$> blocklist (foldl run_rule
                 (cleared m2 (meta f2), advance 1 (advance 1 w2)) (rules content)).1 !! k)
    as Hk.
  { intros k. rewrite !foldl_run_rule_lookup by apply cleared_consistent.
    reflexivity. }
  split; [exact Hk|]. split.
  - intros d. rewrite !lookupDomain_spec. f_equal. now apply spec_lookup_ext.
  - unfold getStats. f_equal.
    + rewrite <- !(size_dom (D := gset string)). f_equal.
      rewrite !foldl_run_rule_index_dom. reflexivity.
    + rewrite <- !(size_dom (D := gset string)). f_equal.
      rewrite !foldl_run_rule_pool_dom. reflexivity.
Qed.

Lemma reload_depends_on_content_only_witness :
  getStats (loadBlocklist loaded_manager (steady_world hosts dup_content)).1.2
  = getStats (loadBlocklist (create hosts empty_world).1.2
                (steady_world hosts dup_content)).1.2.
Proof.
  apply (reload_depends_on_content_only
           loaded_manager (create hosts empty_world).1.2
           (steady_world hosts dup_content) (steady_world hosts dup_content)
           {| meta := stat_of dup_content; data := Some dup_content |}
           {| meta := stat_of dup_content; data := Some dup_content |}
           dup_content); reflexivity.
Defined.

(** ** Fast path, hot reload and failed reload of [checkDomain] *)

Lemma file_changed_snapshot st last :
  file_changed st last = false ↔ last = snapshot_of st.
Proof.
  rewrite file_changed_false. unfold snapshot_of.
  destruct last as [[s n] z], st as [z' [s' n']]. simpl. split.
  - intros (-> & -> & ->). reflexivity.
  - intros [= -> -> ->]. auto.
Qed.

Lemma same_stat_refl a : same_stat a a = true.
Proof. apply same_stat_true. auto. Qed.

Lemma advance_advance n k w : advance n (advance k w) = advance (k + n) w.
Proof. unfold advance. simpl. f_equal. lia. Qed.

Lemma shouldReload_unchanged m w :
  (disk w (clock w) (blocklistPath m) = None
   ∨ ∃ f, disk w (clock w) (blocklistPath m) = Some f
          ∧ lastFileInfo m = snapshot_of (meta f)) →
  shouldReload m w = (false, advance 1 w).
Proof.
  unfold shouldReload, sys_stat. intros [->|(f & -> & H)]; [reflexivity|].
  simpl. apply file_changed_snapshot in H. rewrite H. reflexivity.
Qed.

Lemma shouldReload_steady_changed m w f :
  (∀ t, disk w t (blocklistPath m) = Some f) →
  lastFileInfo m ≠ snapshot_of (meta f) →
  shouldReload m w = (true, advance 1003 w).
Proof.
  intros Hs Hc. unfold shouldReload, isFileStable, sys_stat, usleep. simpl.
  rewrite !Hs. simpl.
  destruct (file_changed (meta f) (lastFileInfo m)) eqn:E.
  - simpl. rewrite same_stat_refl. simpl. rewrite !advance_advance. reflexivity.
  - apply file_changed_snapshot in E. contradiction.
Qed.

(** While the file's size and modification time are those recorded at the
    last load, or while it cannot be stated at all, a lookup costs one
    [stat] and nothing else: no sleep, no reload, no allocation, and the
    manager is left as it was. *)
Theorem unchanged_file_fast_path (d : string) (m : BlocklistManager) (w : World) :
  (disk w (clock w) (blocklistPath m) = None
   ∨ ∃ f, disk w (clock w) (blocklistPath m) = Some f
          ∧ lastFileInfo m = snapshot_of (meta f)) →
  checkDomain d m w
  = (lookupDomain (blocklist m) (Str.tolower d), m, advance 1 w).
Proof.
  intros H. unfold checkDomain. rewrite (shouldReload_unchanged _ _ H).
  reflexivity.
Qed.

Lemma unchanged_file_fast_path_witness :
  checkDomain "A.com" loaded_manager (steady_world hosts "0.0.0.0 a.com")
  = (Ok (true, "0.0.0.0"), loaded_manager,
     advance 1 (steady_world hosts "0.0.0.0 a.com")).
Proof.
  rewrite (unchanged_file_fast_path "A.com" loaded_manager
             (steady_world hosts "0.0.0.0 a.com")).
  - vm_compute. reflexivity.
  - right. eexists. split; vm_compute; reflexivity.
Defined.

(** When the file holds steady, readable bytes whose size or
    modification time differ from the recorded snapshot, a lookup reloads
    first: it answers from the index built from the new bytes (last rule
    of a key wins), records the new snapshot, and the next lookup finds
    nothing to reload. *)
Theorem changed_file_is_reloaded (d : string) (m : BlocklistManager) (w : World)
    (f : File) (content : string) :
  (∀ t, disk w t (blocklistPath m) = Some f) →
  data f = Some content →
  lastFileInfo m ≠ snapshot_of (meta f) →
  lastFileInfo (checkDomain d m w).1.2 = snapshot_of (meta f)
  ∧ (∀ k, address_of <$> blocklist (checkDomain d m w).1.2 !! k
          = fst <$> last (filter (λ r, r.2 = k) (rules content)))
  ∧ (checkDomain d m w).1.1
    = lookupDomain (blocklist (checkDomain d m w).1.2) (Str.tolower d)
  ∧ (shouldReload (checkDomain d m w).1.2 (checkDomain d m w).2).1 = false.
Proof.
  intros Hs Hd Hc.
  split; [|split; [|split; [apply checkDomain_result|]]].
  all: unfold checkDomain.
  all: rewrite (shouldReload_steady_changed m w f Hs Hc); simpl.
  all: rewrite (shouldReload_steady_changed m (advance 1003 w) f Hs Hc); simpl.
  all: rewrite (loadBlocklist_readable m (advance 1003 (advance 1003 w)) f content)
         by (simpl; rewrite Hs; simpl; congruence).
  all: simpl.
  - now rewrite (proj2 (foldl_run_rule_fixed _ _ _)).
  - intros k. rewrite foldl_run_rule_lookup by apply cleared_consistent.
    destruct (last _); simpl; [reflexivity|]. now rewrite lookup_empty.
  - set (s := foldl run_rule _ _).
    rewrite shouldReload_unchanged; [reflexivity|]. right. exists f.
    destruct (foldl_run_rule_world (rules content) (cleared m (meta f))
      (advance 1 (advance 1 (advance 1003 (advance 1003 w))))) as (D & _ & _).
    destruct (foldl_run_rule_fixed (rules content) (cleared m (meta f))
      (advance 1 (advance 1 (advance 1003 (advance 1003 w))))) as (P & L).
    fold s in D, P, L. rewrite D, P, L. simpl. split; [apply Hs|reflexivity].
Qed.

Lemma changed_file_is_reloaded_witness :
  (shouldReload
     (checkDomain "x.com" loaded_manager (steady_world hosts dup_content)).1.2
     (checkDomain "x.com" loaded_manager (steady_world hosts dup_content)).2).1
  = false.
Proof.
  apply (changed_file_is_reloaded "x.com" loaded_manager
           (steady_world hosts dup_content)
           {| meta := stat_of dup_content; data := Some dup_content |}
           dup_content).
  - intros t. reflexivity.
  - reflexivity.
  - vm_compute. discriminate.
Defined.

(** When the file can be stated, with steady metadata that differ from the
    recorded snapshot, but cannot be opened, the snapshot is never
    brought up to date: every lookup runs both change checks with their
    1000 microsecond sleeps and a failing reload, answers from the old
    index, leaves the manager as it was, and the next lookup will do the
    same again. *)
Theorem unreadable_file_is_retried (d : string) (m : BlocklistManager) (w : World)
    (f : File) :
  (∀ t, disk w t (blocklistPath m) = Some f) →
  data f = None →
  lastFileInfo m ≠ snapshot_of (meta f) →
  checkDomain d m w
  = (lookupDomain (blocklist m) (Str.tolower d), m, advance 2008 w)
  ∧ (shouldReload m (advance 2008 w)).1 = true.
Proof.
  intros Hs Hd Hc. split.
  - unfold checkDomain.
    rewrite (shouldReload_steady_changed m w f Hs Hc); simpl.
    rewrite (shouldReload_steady_changed m (advance 1003 w) f Hs Hc); simpl.
    rewrite (loadBlocklist_open_fails m (advance 1003 (advance 1003 w)) f)
      by (simpl; rewrite Hs; simpl; congruence).
    rewrite !advance_advance. reflexivity.
  - now rewrite (shouldReload_steady_changed m (advance 2008 w) f Hs Hc).
Qed.

Lemma unreadable_file_is_retried_witness :
  (shouldReload loaded_manager (advance 2008 (locked_world hosts))).1 = true.
Proof.
  apply (unreadable_file_is_retried "a.com" loaded_manager (locked_world hosts)
           {| meta := stat_of "secret"; data := None |}).
  - intros t. reflexivity.
  - reflexivity.
  - vm_compute. discriminate.
Defined.

(** ** Bounds on the statistics *)

Lemma length_remove_dups_le (l : list string) : length (remove_dups l) ≤ length l.
Proof.
  induction l as [|x l IH]; simpl; [lia|].
  case_match; simpl; lia.
Qed.

Lemma length_rules_le content : length (rules content) ≤ length (getlines content).
Proof.
  unfold rules. induction (getlines content) as [|l ls IH]; [reflexivity|].
  cbn [omap list_omap length]. destruct (parse_line l); cbn [length]; lia.
Qed.

(** After a successful load, neither count of [getStats] exceeds the
    number of rules of the file, which is at most its number of lines; and
    the index is empty exactly when the pool is, namely when the file has
    no rule. *)
Theorem stats_are_bounded (m : BlocklistManager) (w : World) (f0 : File)
    (content : string) :
  disk w (clock w) (blocklistPath m) = Some f0 →
  disk w (clock w + 1) (blocklistPath m) ≫= data = Some content →
  (getStats (loadBlocklist m w).1.2).1 ≤ length (rules content)
  ∧ (getStats (loadBlocklist m w).1.2).2 ≤ length (rules content)
  ∧ length (rules content) ≤ length (getlines content)
  ∧ ((getStats (loadBlocklist m w).1.2).1 = 0 ↔ rules content = [])
  ∧ ((getStats (loadBlocklist m w).1.2).2 = 0 ↔ rules content = []).
Proof.
  intros H0 H1. rewrite (loadBlocklist_readable _ _ _ _ H0 H1). simpl.
  set (s := foldl run_rule _ _).
  assert (size (blocklist s.1) = length (remove_dups (rules content).*2)) as E1.
  { rewrite <- size_list_to_set_remove_dups, <- (size_dom (D := gset string)).
    f_equal. unfold s. rewrite foldl_run_rule_index_dom. simpl.
    rewrite dom_empty_L. set_solver. }
  assert (size (addressPool s.1) = length (remove_dups (rules content).*1)) as E2.
  { rewrite <- size_list_to_set_remove_dups, <- (size_dom (D := gset string)).
    f_equal. unfold s. rewrite foldl_run_rule_pool_dom. simpl.
    rewrite dom_empty_L. set_solver. }
  rewrite E1, E2.
  assert (∀ l : list string, length (remove_dups l) = 0 ↔ l = []) as Hz.
  { intros l. split; [|intros ->; reflexivity].
    intros H. destruct l as [|x l]; [reflexivity|]. exfalso.
    assert (x ∈ remove_dups (x :: l)) as Hx
      by (apply elem_of_remove_dups; left).
    destruct (remove_dups (x :: l)); [inversion Hx|discriminate]. }
  split; [|split; [|split; [|split]]].
  - etrans; [apply length_remove_dups_le|]. now rewrite length_fmap.
  - etrans; [apply length_remove_dups_le|]. now rewrite length_fmap.
  - apply length_rules_le.
  - rewrite Hz. destruct (rules content); simpl; split; congruence.
  - rewrite Hz. destruct (rules content); simpl; split; congruence.
Qed.

Lemma stats_are_bounded_witness :
  (getStats (loadBlocklist loaded_manager (steady_world hosts dup_content)).1.2).1
  ≤ length (rules dup_content).
Proof.
  apply (stats_are_bounded loaded_manager (steady_world hosts dup_content)
           {| meta := stat_of dup_content; data := Some dup_content |}
           dup_content); reflexivity.
Defined.
